(** * A shallow embedding of the Tetris engine of [main.py]

    The engine part of the program (the classes [Tetromino] and
    [TetrisGame] without their drawing methods) is embedded as Rocq
    functions.  Python integers are [Z]; Python lists are [list]s that are
    indexed the way Python indexes them (negative indices count from the
    end, an index out of range raises [IndexError]); a computation that may
    raise lives in [option], [None] standing for the raised [IndexError];
    [random.choice] is replaced by an extra argument carrying the shape it
    picks; the [while] loop of [drop_piece] is run with fuel. *)

From stdpp Require Import base list strings numbers.
From Stdlib Require Import ZArith Lia Ascii.
Local Open Scope Z_scope.

(** ** Python lists *)

Module Py.

(** The value a call evaluates to: [None] for a body that ends without a
    [return] statement. *)
Inductive value :=
  | PyNone
  | PyInt (n : Z).

(** [index n i] resolves the subscript [i] of a list of length [n]. *)
Definition index (n : nat) (i : Z) : option nat :=
  if bool_decide (0 ≤ i) then
    if bool_decide (i < Z.of_nat n) then Some (Z.to_nat i) else None
  else
    if bool_decide (- Z.of_nat n ≤ i) then Some (Z.to_nat (Z.of_nat n + i))
    else None.

(** [l[i]] *)
Definition getitem {A} (l : list A) (i : Z) : option A :=
  k ← index (length l) i; l !! k.

(** [l[i] = v] *)
Definition setitem {A} (l : list A) (i : Z) (v : A) : option (list A) :=
  k ← index (length l) i; Some (<[k:=v]> l).

(** [del l[i]] *)
Definition delitem {A} (l : list A) (i : Z) : option (list A) :=
  k ← index (length l) i; Some (delete k l).

(** [enumerate(l)] *)
Definition enumerate {A} (l : list A) : list (Z * A) :=
  imap (λ i a, (Z.of_nat i, a)) l.

(** [range(n)] *)
Definition range (n : Z) : list Z := seqZ 0 n.

End Py.

(** ** Module-level constants *)

Definition GRID_WIDTH : Z := 10.
Definition GRID_HEIGHT : Z := 20.

Definition rgb : Type := Z * Z * Z.

Definition BLACK : rgb := (0, 0, 0).
Definition WHITE : rgb := (255, 255, 255).
Definition RED : rgb := (255, 0, 0).
Definition GREEN : rgb := (0, 255, 0).
Definition BLUE : rgb := (0, 0, 255).
Definition YELLOW : rgb := (255, 255, 0).
Definition ORANGE : rgb := (255, 165, 0).
Definition PURPLE : rgb := (128, 0, 128).
Definition CYAN : rgb := (0, 255, 255).
Definition GRAY : rgb := (128, 128, 128).

(** The keys of the dictionaries [TETROMINOES] and [TETROMINO_COLORS]. *)
Module Shape.
Inductive t := I | O | T | S | Z | J | L.
End Shape.

#[global] Instance shape_eq_dec : EqDecision Shape.t.
Proof. solve_decision. Defined.

(** [list(TETROMINOES.keys())] *)
Definition shape_keys : list Shape.t :=
  [Shape.I; Shape.O; Shape.T; Shape.S; Shape.Z; Shape.J; Shape.L].

Definition TETROMINOES (k : Shape.t) : list (list string) :=
  match k with
  | Shape.I =>
      [ [ "....."; "..#.."; "..#.."; "..#.."; "..#.." ];
        [ "....."; "....."; "####."; "....."; "....." ] ]
  | Shape.O =>
      [ [ "....."; "....."; ".##.."; ".##.."; "....." ] ]
  | Shape.T =>
      [ [ "....."; "....."; ".#..."; "###.."; "....." ];
        [ "....."; "....."; ".#..."; ".##.."; ".#..." ];
        [ "....."; "....."; "....."; "###.."; ".#..." ];
        [ "....."; "....."; ".#..."; "##..."; ".#..." ] ]
  | Shape.S =>
      [ [ "....."; "....."; ".##.."; "##..."; "....." ];
        [ "....."; "....."; ".#..."; ".##.."; "..#.." ] ]
  | Shape.Z =>
      [ [ "....."; "....."; "##..."; ".##.."; "....." ];
        [ "....."; "....."; "..#.."; ".##.."; ".#..." ] ]
  | Shape.J =>
      [ [ "....."; "....."; ".#..."; ".#..."; "##..." ];
        [ "....."; "....."; "....."; "#...."; "###.." ];
        [ "....."; "....."; ".##.."; ".#..."; ".#..." ];
        [ "....."; "....."; "....."; "###.."; "..#.." ] ]
  | Shape.L =>
      [ [ "....."; "....."; ".#..."; ".#..."; ".##.." ];
        [ "....."; "....."; "....."; "###.."; "#...." ];
        [ "....."; "....."; "##..."; ".#..."; ".#..." ];
        [ "....."; "....."; "....."; "..#.."; "###.." ] ]
  end.

Definition TETROMINO_COLORS (k : Shape.t) : rgb :=
  match k with
  | Shape.I => CYAN
  | Shape.O => YELLOW
  | Shape.T => PURPLE
  | Shape.S => GREEN
  | Shape.Z => RED
  | Shape.J => BLUE
  | Shape.L => ORANGE
  end.

(** ** class Tetromino *)

Module Tetromino.

Record t := mk {
  x : Z;
  y : Z;
  shape : Shape.t;
  color : rgb;
  rotation : Z
}.

Definition set_x (p : t) (v : Z) : t := mk v (y p) (shape p) (color p) (rotation p).
Definition set_y (p : t) (v : Z) : t := mk (x p) v (shape p) (color p) (rotation p).
Definition set_rotation (p : t) (v : Z) : t := mk (x p) (y p) (shape p) (color p) v.

(** [__init__]; [choice] is the key that [random.choice] returns. *)
Definition init (x y : Z) (choice : Shape.t) : t :=
  mk x y choice (TETROMINO_COLORS choice) 0.

(** The subscript [self.rotation % len(...)] is never out of range (lemma
    [rotation_index_in_range]), so the total lookup never falls back on its
    default. *)
Definition get_rotated_shape (p : t) : list string :=
  let states := TETROMINOES (shape p) in
  states !!! Z.to_nat (rotation p `mod` Z.of_nat (length states)).

Definition get_cells (p : t) : list (Z * Z) :=
  let shape := get_rotated_shape p in
  '(i, row) ← Py.enumerate shape;
  '(j, cell) ← Py.enumerate (String.list_ascii_of_string row);
  if bool_decide (cell = "#"%char) then [(x p + j, y p + i)] else [].

End Tetromino.

(** ** class TetrisGame *)

Module TetrisGame.

Record t := mk {
  grid : list (list rgb);
  current_piece : Tetromino.t;
  next_piece : Tetromino.t;
  score : Z;
  level : Z;
  lines_cleared : Z;
  fall_time : Z;
  fall_speed : Z;
  game_over : bool
}.

Definition set_grid (g : t) (v : list (list rgb)) : t :=
  mk v (current_piece g) (next_piece g) (score g) (level g)
     (lines_cleared g) (fall_time g) (fall_speed g) (game_over g).
Definition set_current_piece (g : t) (v : Tetromino.t) : t :=
  mk (grid g) v (next_piece g) (score g) (level g)
     (lines_cleared g) (fall_time g) (fall_speed g) (game_over g).
Definition set_next_piece (g : t) (v : Tetromino.t) : t :=
  mk (grid g) (current_piece g) v (score g) (level g)
     (lines_cleared g) (fall_time g) (fall_speed g) (game_over g).
Definition set_score (g : t) (v : Z) : t :=
  mk (grid g) (current_piece g) (next_piece g) v (level g)
     (lines_cleared g) (fall_time g) (fall_speed g) (game_over g).
Definition set_level (g : t) (v : Z) : t :=
  mk (grid g) (current_piece g) (next_piece g) (score g) v
     (lines_cleared g) (fall_time g) (fall_speed g) (game_over g).
Definition set_lines_cleared (g : t) (v : Z) : t :=
  mk (grid g) (current_piece g) (next_piece g) (score g) (level g)
     v (fall_time g) (fall_speed g) (game_over g).
Definition set_fall_time (g : t) (v : Z) : t :=
  mk (grid g) (current_piece g) (next_piece g) (score g) (level g)
     (lines_cleared g) v (fall_speed g) (game_over g).
Definition set_fall_speed (g : t) (v : Z) : t :=
  mk (grid g) (current_piece g) (next_piece g) (score g) (level g)
     (lines_cleared g) (fall_time g) v (game_over g).
Definition set_game_over (g : t) (v : bool) : t :=
  mk (grid g) (current_piece g) (next_piece g) (score g) (level g)
     (lines_cleared g) (fall_time g) (fall_speed g) v.

(** [[BLACK for _ in range(GRID_WIDTH)]] *)
Definition empty_row : list rgb := replicate (Z.to_nat GRID_WIDTH) BLACK.

(** [[[BLACK for _ in range(GRID_WIDTH)] for _ in range(GRID_HEIGHT)]] *)
Definition empty_grid : list (list rgb) :=
  replicate (Z.to_nat GRID_HEIGHT) empty_row.

Definition get_new_piece (choice : Shape.t) : Tetromino.t :=
  Tetromino.init (GRID_WIDTH `div` 2 - 2) 0 choice.

(** [__init__] without the window; [c1] and [c2] are the two draws of
    [random.choice]. *)
Definition init (c1 c2 : Shape.t) : t :=
  mk empty_grid (get_new_piece c1) (get_new_piece c2) 0 1 0 0 500 false.

(** [self.grid[y][x]] *)
Definition grid_get (grid : list (list rgb)) (y x : Z) : option rgb :=
  row ← Py.getitem grid y; Py.getitem row x.

(** [self.grid[y][x] = v] *)
Definition grid_set (grid : list (list rgb)) (y x : Z) (v : rgb)
  : option (list (list rgb)) :=
  row ← Py.getitem grid y;
  row' ← Py.setitem row x v;
  Py.setitem grid y row'.

(** The [for] loop of [is_valid_position] over the cells of the piece; the
    result is the value the method returns. *)
Fixpoint check_cells (grid : list (list rgb)) (dx dy : Z)
    (cells : list (Z * Z)) : option bool :=
  match cells with
  | [] => Some true
  | (x, y) :: rest =>
      let x := x + dx in
      let y := y + dy in
      if bool_decide (x < 0) || bool_decide (x >= GRID_WIDTH)
         || bool_decide (y >= GRID_HEIGHT)
      then Some false
      else if bool_decide (y >= 0) then
        c ← grid_get grid y x;
        if bool_decide (c ≠ BLACK) then Some false
        else check_cells grid dx dy rest
      else check_cells grid dx dy rest
  end.

(** [is_valid_position] as a transformer of the piece object it is given:
    the result, the piece as the call leaves it, and the piece after each
    of the assignments to [piece.rotation] that the call performs, in
    order.  All three [return]s are preceded by the same restoring
    assignment, which is written once here, after the loop. *)
Definition is_valid_position_run (grid : list (list rgb))
    (piece : Tetromino.t) (dx dy : Z) (rotation : option Z)
  : option (bool * Tetromino.t * list Tetromino.t) :=
  let rotation := default (Tetromino.rotation piece) rotation in
  let old_rotation := Tetromino.rotation piece in
  let piece1 := Tetromino.set_rotation piece rotation in
  ok ← check_cells grid dx dy (Tetromino.get_cells piece1);
  let piece2 := Tetromino.set_rotation piece1 old_rotation in
  Some (ok, piece2, [piece1; piece2]).

(** The value returned by [is_valid_position]. *)
Definition is_valid_position (grid : list (list rgb))
    (piece : Tetromino.t) (dx dy : Z) (rotation : option Z) : option bool :=
  r ← is_valid_position_run grid piece dx dy rotation; Some (r.1.1).

(** [self.is_valid_position(self.current_piece, ...)]: the piece object is
    the game's own current piece, so what the call does to it is done to
    the game. *)
Definition check_current (g : t) (dx dy : Z) (rotation : option Z)
  : option (bool * t) :=
  r ← is_valid_position_run (grid g) (current_piece g) dx dy rotation;
  Some (r.1.1, set_current_piece g (r.1.2)).

(** The [for] loop of [place_piece]. *)
Fixpoint place_cells (grid : list (list rgb)) (color : rgb)
    (cells : list (Z * Z)) : option (list (list rgb)) :=
  match cells with
  | [] => Some grid
  | (x, y) :: rest =>
      if bool_decide (y >= 0) then
        grid' ← grid_set grid y x color;
        place_cells grid' color rest
      else place_cells grid color rest
  end.

Definition place_piece (g : t) (piece : Tetromino.t) : option t :=
  grid' ← place_cells (grid g) (Tetromino.color piece)
                      (Tetromino.get_cells piece);
  Some (set_grid g grid').

(** [all(cell != BLACK for cell in row)] *)
Definition row_complete (row : list rgb) : bool :=
  forallb (λ cell, bool_decide (cell ≠ BLACK)) row.

(** The first loop of [clear_lines]: the list [lines_to_clear]. *)
Fixpoint scan_lines (grid : list (list rgb)) (ys : list Z)
  : option (list Z) :=
  match ys with
  | [] => Some []
  | y :: rest =>
      row ← Py.getitem grid y;
      tl ← scan_lines grid rest;
      Some (if row_complete row then y :: tl else tl)
  end.

(** The second loop of [clear_lines]. *)
Fixpoint delete_lines (grid : list (list rgb)) (lines_to_clear : list Z)
  : option (list (list rgb)) :=
  match lines_to_clear with
  | [] => Some grid
  | y :: rest =>
      grid' ← Py.delitem grid y;
      delete_lines (empty_row :: grid') rest
  end.

(** The method has no [return] statement. *)
Definition clear_lines (g : t) : option (Py.value * t) :=
  lines_to_clear ← scan_lines (grid g) (Py.range GRID_HEIGHT);
  grid' ← delete_lines (grid g) lines_to_clear;
  let g := set_grid g grid' in
  let lines_cleared_ := Z.of_nat (length lines_to_clear) in
  let g :=
    if bool_decide (lines_cleared_ > 0) then
      let g := set_lines_cleared g (lines_cleared g + lines_cleared_) in
      let g := set_score g (score g + lines_cleared_ * 100 * level g) in
      let g := set_level g (lines_cleared g `div` 10 + 1) in
      set_fall_speed g (Z.max 50 (500 - (level g - 1) * 50))
    else g in
  Some (Py.PyNone, g).

(** [self.current_piece.y += 1] *)
Definition current_down (g : t) : t :=
  set_current_piece g
    (Tetromino.set_y (current_piece g) (Tetromino.y (current_piece g) + 1)).

(** The [else] branch of [update]: the piece is locked.  [choice] is the
    draw of [random.choice] in [get_new_piece]. *)
Definition lock_piece (choice : Shape.t) (g : t) : option t :=
  g ← place_piece g (current_piece g);
  r ← clear_lines g;
  let g := r.2 in
  let g := set_current_piece g (next_piece g) in
  let g := set_next_piece g (get_new_piece choice) in
  r ← check_current g 0 0 None;
  let g := r.2 in
  Some (if negb r.1 then set_game_over g true else g).

Definition update (choice : Shape.t) (dt : Z) (g : t) : option t :=
  if game_over g then Some g
  else
    let g := set_fall_time g (fall_time g + dt) in
    if bool_decide (fall_time g >= fall_speed g) then
      r ← check_current g 0 1 None;
      g ← (if r.1 : bool then Some (current_down r.2)
           else lock_piece choice r.2);
      Some (set_fall_time g 0)
    else Some g.

Definition move_piece (dx : Z) (g : t) : option t :=
  r ← check_current g dx 0 None;
  let g := r.2 in
  Some (if r.1 : bool then
          set_current_piece g
            (Tetromino.set_x (current_piece g)
                             (Tetromino.x (current_piece g) + dx))
        else g).

Definition rotate_piece (g : t) : option t :=
  let new_rotation :=
    (Tetromino.rotation (current_piece g) + 1)
      `mod` Z.of_nat (length (TETROMINOES (Tetromino.shape (current_piece g)))) in
  r ← check_current g 0 0 (Some new_rotation);
  let g := r.2 in
  Some (if r.1 : bool then
          set_current_piece g
            (Tetromino.set_rotation (current_piece g) new_rotation)
        else g).

(** What a bounded run of a loop gives. *)
Inductive loop_result (A : Type) :=
  | Finished (r : option A)
  | OutOfFuel.
Arguments Finished {A} r.
Arguments OutOfFuel {A}.

(** [drop_piece]: the [while] loop, at most [fuel] evaluations of its
    condition. *)
Fixpoint drop_piece (fuel : nat) (g : t) : loop_result t :=
  match fuel with
  | O => OutOfFuel
  | S fuel' =>
      match check_current g 0 1 None with
      | None => Finished None
      | Some r =>
          if r.1 then drop_piece fuel' (current_down r.2)
          else Finished (Some r.2)
      end
  end.

(** The [K_s] branch of [run]. *)
Definition soft_drop (g : t) : option t :=
  r ← check_current g 0 1 None;
  Some (if r.1 : bool then current_down r.2 else r.2).

(** [reset_game]; [c1] and [c2] are the two draws of [random.choice]. *)
Definition reset_game (c1 c2 : Shape.t) (g : t) : t :=
  let g := set_grid g empty_grid in
  let g := set_current_piece g (get_new_piece c1) in
  let g := set_next_piece g (get_new_piece c2) in
  let g := set_score g 0 in
  let g := set_level g 1 in
  let g := set_lines_cleared g 0 in
  let g := set_fall_time g 0 in
  let g := set_fall_speed g 500 in
  set_game_over g false.

End TetrisGame.

(** ** Specification vocabulary *)

Import TetrisGame.

(** The grid has [GRID_HEIGHT] rows of [GRID_WIDTH] cells. *)
Definition wf_grid (grid : list (list rgb)) : Prop :=
  length grid = Z.to_nat GRID_HEIGHT
  ∧ Forall (λ row, length row = Z.to_nat GRID_WIDTH) grid.

(** The cells a piece would occupy after a translation and under an
    optional rotation override. *)
Definition candidate_cells (piece : Tetromino.t) (dx dy : Z)
    (rotation : option Z) : list (Z * Z) :=
  (λ c, (c.1 + dx, c.2 + dy)) <$>
    Tetromino.get_cells
      (Tetromino.set_rotation piece
         (default (Tetromino.rotation piece) rotation)).

(** A cell [(x, y)] that a piece may occupy. *)
Definition cell_free (grid : list (list rgb)) (c : Z * Z) : Prop :=
  0 ≤ c.1 < GRID_WIDTH ∧ c.2 < GRID_HEIGHT
  ∧ (c.2 < 0 ∨ grid_get grid c.2 c.1 = Some BLACK).

(** The reading of C6 as the claim has it: no state of the piece during
    the call differs from the piece as it was passed. *)
Definition never_mutates (grid : list (list rgb)) (piece : Tetromino.t)
    (dx dy : Z) (rotation : option Z) : Prop :=
  ∀ r, is_valid_position_run grid piece dx dy rotation = Some r →
       r.1.2 = piece ∧ Forall (λ p, p = piece) r.2.

(** The subscripts, counted from [o], of the complete rows of [rows]. *)
Fixpoint complete_from (o : Z) (rows : list (list rgb)) : list Z :=
  match rows with
  | [] => []
  | row :: rest =>
      if row_complete row then o :: complete_from (o + 1) rest
      else complete_from (o + 1) rest
  end.

(** The grid after gravity compaction: one empty row on top for each
    complete row, then the other rows in their order. *)
Definition compacted (grid : list (list rgb)) : list (list rgb) :=
  replicate (length (List.filter row_complete grid)) empty_row
  ++ List.filter (λ row, negb (row_complete row)) grid.

(** The reading of C2's first sentence: the call evaluates to the number
    of complete rows. *)
Definition returns_line_count (g : t) : Prop :=
  ∃ g', clear_lines g
        = Some (Py.PyInt (Z.of_nat (length (List.filter row_complete (grid g)))),
                g')
        ∧ grid g' = compacted (grid g).

(** The number of complete rows of the grid. *)
Definition complete_rows (g : t) : Z :=
  Z.of_nat (length (List.filter row_complete (grid g))).

(** Sample rows and games for the line-clearing properties. *)
Definition full_row : list rgb := replicate (Z.to_nat GRID_WIDTH) CYAN.
Definition partial_row : list rgb :=
  BLACK :: replicate (Z.to_nat GRID_WIDTH - 1) RED.

(** A fresh game whose grid is replaced by [rows]. *)
Definition fresh_with (rows : list (list rgb)) : t :=
  set_grid (init Shape.I Shape.O) rows.

(** Rows [complete, partial, complete] above seventeen empty rows. *)
Definition sandwich : t :=
  fresh_with ([full_row; partial_row; full_row] ++ replicate 17 empty_row).

(** Four complete rows at the bottom. *)
Definition tetris : t :=
  fresh_with (replicate 16 empty_row ++ replicate 4 full_row).

(** The marked cells [(j, i)] of one rotation state, column first. *)
Definition offsets (state : list string) : list (Z * Z) :=
  '(i, row) ← Py.enumerate state;
  '(j, cell) ← Py.enumerate (String.list_ascii_of_string row);
  if bool_decide (cell = "#"%char) then [(j, i)] else [].

(** The rotation [rotate_piece] tries. *)
Definition new_rotation (piece : Tetromino.t) : Z :=
  (Tetromino.rotation piece + 1)
    `mod` Z.of_nat (length (TETROMINOES (Tetromino.shape piece))).

(** A number of iterations that the loop of [drop_piece] never needs more
    than. *)
Definition drop_bound (g : t) : nat :=
  Z.to_nat (GRID_HEIGHT - Tetromino.y (current_piece g)).

(** ** Runs of the game *)

(** The calls that the event loop of [run] makes on the game: [update]
    once a frame and one call for each key pressed.  The draws of
    [random.choice] that a call makes are its arguments. *)
Inductive op :=
  | Tick (choice : Shape.t) (dt : Z)
  | MovePiece (dx : Z)
  | RotatePiece
  | SoftDrop
  | HardDrop
  | Reset (c1 c2 : Shape.t).

Definition step (g : t) (o : op) (g' : t) : Prop :=
  match o with
  | Tick choice dt => update choice dt g = Some g'
  | MovePiece dx => move_piece dx g = Some g'
  | RotatePiece => rotate_piece g = Some g'
  | SoftDrop => soft_drop g = Some g'
  | HardDrop => ∃ fuel, drop_piece fuel g = Finished (Some g')
  | Reset c1 c2 => g' = reset_game c1 c2 g
  end.

(** The games that [run] can be in: a fresh game and what calls make of
    it. *)
Inductive reachable : t → Prop :=
  | reachable_init c1 c2 : reachable (init c1 c2)
  | reachable_step g o g' : reachable g → step g o g' → reachable g'.

(** An executable [step]. *)
Definition exec (o : op) (g : t) : option t :=
  match o with
  | Tick choice dt => update choice dt g
  | MovePiece dx => move_piece dx g
  | RotatePiece => rotate_piece g
  | SoftDrop => soft_drop g
  | HardDrop =>
      match drop_piece (S (drop_bound g)) g with
      | Finished r => r
      | OutOfFuel => None
      end
  | Reset c1 c2 => Some (reset_game c1 c2 g)
  end.

Fixpoint exec_all (ops : list op) (g : t) : option t :=
  match ops with
  | [] => Some g
  | o :: rest => g' ← exec o g; exec_all rest g'
  end.

(** A cell holds [BLACK] or the colour of a shape. *)
Definition tag_or_empty (c : rgb) : Prop :=
  c = BLACK ∨ ∃ k, c = TETROMINO_COLORS k.

(** A piece as [Tetromino] builds it. *)
Definition piece_colored (p : Tetromino.t) : Prop :=
  Tetromino.color p = TETROMINO_COLORS (Tetromino.shape p).

(** The invariant of the game: the grid keeps its shape and holds tags
    only, the pieces have their shapes' colours, and while the game is
    not over the current piece is at a valid position. *)
Definition game_inv (g : t) : Prop :=
  wf_grid (grid g)
  ∧ Forall (Forall tag_or_empty) (grid g)
  ∧ piece_colored (current_piece g)
  ∧ piece_colored (next_piece g)
  ∧ (game_over g = false →
     is_valid_position (grid g) (current_piece g) 0 0 None = Some true).

(** Four I pieces dropped on one another in the spawn column: the fifth
    cannot be placed. *)
Definition topped_out : list op :=
  [HardDrop; Tick Shape.I 500; HardDrop; Tick Shape.I 500;
   HardDrop; Tick Shape.I 500; HardDrop; Tick Shape.I 500].

(** Two games that differ in the current piece at most. *)
Definition same_but_current (g g' : t) : Prop :=
  grid g' = grid g ∧ next_piece g' = next_piece g
  ∧ score g' = score g ∧ level g' = level g
  ∧ lines_cleared g' = lines_cleared g
  ∧ fall_time g' = fall_time g ∧ fall_speed g' = fall_speed g
  ∧ game_over g' = game_over g.

(** ** Further invariants *)

(** A cell of the grid. *)
Definition in_grid (c : Z * Z) : Prop :=
  0 ≤ c.1 < GRID_WIDTH ∧ 0 ≤ c.2 < GRID_HEIGHT.

(** The pieces of a game: the current piece is at or below its spawn row,
    in one of the rotation states of its shape and inside the grid; the
    next piece is as [get_new_piece] made it. *)
Definition piece_inv (g : t) : Prop :=
  0 ≤ Tetromino.y (current_piece g)
  ∧ 0 ≤ Tetromino.rotation (current_piece g)
      < Z.of_nat (length (TETROMINOES (Tetromino.shape (current_piece g))))
  ∧ Forall in_grid (Tetromino.get_cells (current_piece g))
  ∧ ∃ k, next_piece g = get_new_piece k.

(** The counters of a game. *)
Definition stats_inv (g : t) : Prop :=
  0 ≤ lines_cleared g
  ∧ 0 ≤ score g
  ∧ (100 | score g)
  ∧ level g = lines_cleared g `div` 10 + 1
  ∧ fall_speed g = Z.max 50 (500 - (level g - 1) * 50).

(** No row of the grid is complete. *)
Definition no_complete_row (grid : list (list rgb)) : Prop :=
  Forall (λ row, row_complete row = false) grid.

Definition full_inv (g : t) : Prop :=
  game_inv g ∧ piece_inv g ∧ stats_inv g ∧ no_complete_row (grid g).

(** A cell that [place_piece] cannot write: on or below row 0 and past
    the right edge, past the bottom edge, or more than a grid's width left
    of column 0. *)
Definition unwritable (c : Z * Z) : Prop :=
  0 ≤ c.2 ∧ (GRID_HEIGHT ≤ c.2 ∨ GRID_WIDTH ≤ c.1 ∨ c.1 < - GRID_WIDTH).

(** [k] presses of S in a row. *)
Fixpoint soft_drops (k : nat) (g : t) : option t :=
  match k with
  | O => Some g
  | S k' => g' ← soft_drop g; soft_drops k' g'
  end.

(** The calls made for the keys A, D, W, S and Space. *)
Definition key_handler (o : op) : Prop :=
  match o with
  | Tick _ _ | Reset _ _ => False
  | _ => True
  end.

(** Some cell of the 5x5 box in which pieces spawn is occupied. *)
Definition spawn_blocked (grid : list (list rgb)) : Prop :=
  ∃ x y v, 3 ≤ x < 8 ∧ 0 ≤ y < 5
           ∧ grid_get grid y x = Some v ∧ v ≠ BLACK.

(** Whether a cell is free can be computed. *)
#[global] Instance cell_free_dec grid c : Decision (cell_free grid c).
Proof. unfold cell_free. apply _. Defined.

(** ** Drawing *)

Definition CELL_SIZE : Z := 30.
Definition GRID_X_OFFSET : Z := 50.
Definition GRID_Y_OFFSET : Z := 50.

(** [pygame.Rect(left, top, width, height)] *)
Record Rect := mkRect { left : Z; top : Z; width : Z; height : Z }.

(** [pygame.font.Font(None, size).render(text, True, color)] *)
Record Surface := render { font_size : Z; text : string; text_color : rgb }.

(** The calls a drawing method makes on [self.screen], in order:
    [pygame.draw.rect(self.screen, color, rect, width)], whose [width] is
    0 (fill the rectangle) when it is not given, and
    [self.screen.blit(source, dest)]. *)
Inductive draw_call :=
  | draw_rect (color : rgb) (rect : Rect) (line : Z)
  | blit (source : Surface) (dest : Z * Z).

(** The rectangle of the grid cell in column [x] of row [y]. *)
Definition cell_rect (x y : Z) : Rect :=
  mkRect (GRID_X_OFFSET + x * CELL_SIZE) (GRID_Y_OFFSET + y * CELL_SIZE)
         CELL_SIZE CELL_SIZE.




Definition draw_piece (piece : Tetromino.t) (offset_x offset_y : Z)
  : list draw_call :=
  c ← Tetromino.get_cells piece;
  if bool_decide (c.2 >= 0) then
    let rect :=
      mkRect (GRID_X_OFFSET + (c.1 + offset_x) * CELL_SIZE)
             (GRID_Y_OFFSET + (c.2 + offset_y) * CELL_SIZE)
             CELL_SIZE CELL_SIZE in
    [draw_rect (Tetromino.color piece) rect 0; draw_rect WHITE rect 1]
  else [].




(** The rectangle of a drawing call, for [draw_rect]. *)
Definition rect_of (d : draw_call) : option Rect :=
  match d with
  | draw_rect _ r _ => Some r
  | blit _ _ => None
  end.

(** ** The event loop *)

(** [event.key] of a [KEYDOWN] event. *)
Inductive key := K_a | K_d | K_s | K_w | K_SPACE | K_r | K_other.

(** An event of [pygame.event.get()], by [event.type]. *)
Inductive event :=
  | QUIT
  | KEYDOWN (k : key)
  | OTHER.

(** The call the [if]/[elif] chain of [run] makes for a key; [c1] and
    [c2] are the draws of [random.choice] in case it is [reset_game]. *)
Definition key_op (k : key) (c1 c2 : Shape.t) : option op :=
  match k with
  | K_a => Some (MovePiece (-1))
  | K_d => Some (MovePiece 1)
  | K_s => Some SoftDrop
  | K_w => Some RotatePiece
  | K_SPACE => Some HardDrop
  | K_r => Some (Reset c1 c2)
  | K_other => None
  end.

(** The [for] loop of [run] over the events of a frame, each with the
    draws it may need.  The outer [None] is a raised [IndexError]; the
    inner [None] is [sys.exit()], after which nothing else happens. *)
Fixpoint handle_events (events : list (event * (Shape.t * Shape.t)))
    (g : t) : option (option t) :=
  match events with
  | [] => Some (Some g)
  | (e, (c1, c2)) :: rest =>
      match e with
      | QUIT => Some None
      | KEYDOWN k =>
          match key_op k c1 c2 with
          | Some o => g' ← exec o g; handle_events rest g'
          | None => handle_events rest g
          end
      | OTHER => handle_events rest g
      end
  end.

(** The game logic of one iteration of the loop of [run]: the events,
    then [update] with the time [dt] that the clock returned.  The
    drawing that follows does not change the game. *)
Definition frame (events : list (event * (Shape.t * Shape.t)))
    (choice : Shape.t) (dt : Z) (g : t) : option (option t) :=
  r ← handle_events events g;
  match r with
  | None => Some None
  | Some g' => g'' ← update choice dt g'; Some (Some g'')
  end.


(** A drawing call on the rectangle of a cell of the grid. *)
Definition on_board (d : draw_call) : Prop :=
  ∃ x y, in_grid (x, y) ∧ rect_of d = Some (cell_rect x y).


(** The number of occupied cells of a row, and of the grid. *)
Definition occupied_row (row : list rgb) : nat :=
  length (List.filter (λ c, bool_decide (c ≠ BLACK)) row).

Definition occupied (grid : list (list rgb)) : nat :=
  sum_list (occupied_row <$> grid).

(** * Properties *)

(** Every shape is a key [random.choice] may draw. *)
Lemma shape_keys_all k : k ∈ shape_keys.
Proof. destruct k; unfold shape_keys; repeat constructor. Qed.

(** ** Python subscripts *)

Lemma index_Some n i k :
  Py.index n i = Some k → (k < n)%nat.
Proof.
  unfold Py.index. intros H.
  repeat case_bool_decide; simplify_eq; lia.
Qed.

Lemma index_nonneg n i :
  0 ≤ i < Z.of_nat n → Py.index n i = Some (Z.to_nat i).
Proof.
  intros H. unfold Py.index.
  rewrite !bool_decide_eq_true_2 by lia. reflexivity.
Qed.

Lemma getitem_nonneg {A} (l : list A) i :
  0 ≤ i < Z.of_nat (length l) → Py.getitem l i = l !! Z.to_nat i.
Proof. intros H. unfold Py.getitem. rewrite index_nonneg by done. done. Qed.

Lemma getitem_is_Some {A} (l : list A) i :
  0 ≤ i < Z.of_nat (length l) → is_Some (Py.getitem l i).
Proof.
  intros H. rewrite getitem_nonneg by done.
  apply lookup_lt_is_Some. lia.
Qed.

Lemma grid_get_is_Some grid y x :
  wf_grid grid → 0 ≤ y < GRID_HEIGHT → 0 ≤ x < GRID_WIDTH →
  is_Some (grid_get grid y x).
Proof.
  intros [Hlen Hrows] Hy Hx. unfold grid_get.
  rewrite getitem_nonneg by lia.
  destruct (lookup_lt_is_Some_2 grid (Z.to_nat y)) as [row Hrow]; [lia|].
  rewrite Hrow. simpl.
  apply getitem_is_Some.
  rewrite Forall_lookup in Hrows. rewrite (Hrows _ _ Hrow). lia.
Qed.

(** ** [is_valid_position] *)

Lemma check_cells_true grid dx dy cells :
  check_cells grid dx dy cells = Some true
  ↔ Forall (cell_free grid) ((λ c, (c.1 + dx, c.2 + dy)) <$> cells).
Proof.
  induction cells as [|[x y] rest IH]; csimpl.
  - split; [constructor|done].
  - rewrite list.Forall_cons, <- IH. unfold cell_free; simpl.
    repeat case_bool_decide; simpl; try (split; [done|intros [? _]; lia]).
    + destruct (grid_get grid (y + dy) (x + dx)) as [c|] eqn:Hc; simpl.
      * case_bool_decide as Hb; simpl.
        -- split; [done|]. intros [(_ & _ & [?|?]) _]; [lia|congruence].
        -- subst c. intuition lia.
      * split; [done|]. intros [(_ & _ & [?|?]) _]; [lia|congruence].
    + intuition lia.
Qed.

Lemma check_cells_total grid dx dy cells :
  wf_grid grid → is_Some (check_cells grid dx dy cells).
Proof.
  intros Hwf. induction cells as [|[x y] rest IH]; simpl; [by eexists|].
  repeat case_bool_decide; simpl; try (by eexists); try done.
  destruct (grid_get_is_Some grid (y + dy) (x + dx)) as [c ->]; [done|lia|lia|].
  simpl. case_bool_decide; [by eexists|done].
Qed.

Lemma set_rotation_restore p r :
  Tetromino.set_rotation (Tetromino.set_rotation p r) (Tetromino.rotation p) = p.
Proof. by destruct p. Qed.

Lemma set_current_piece_same g : set_current_piece g (current_piece g) = g.
Proof. by destruct g. Qed.

Lemma is_valid_position_run_eq grid piece dx dy rotation :
  is_valid_position_run grid piece dx dy rotation =
  ok ← is_valid_position grid piece dx dy rotation;
  Some (ok, piece,
        [Tetromino.set_rotation piece
           (default (Tetromino.rotation piece) rotation); piece]).
Proof.
  unfold is_valid_position, is_valid_position_run.
  destruct (check_cells _ _ _ _); simpl; [|done].
  by rewrite set_rotation_restore.
Qed.

Lemma is_valid_position_check grid piece dx dy rotation :
  is_valid_position grid piece dx dy rotation =
  check_cells grid dx dy
    (Tetromino.get_cells
       (Tetromino.set_rotation piece
          (default (Tetromino.rotation piece) rotation))).
Proof.
  unfold is_valid_position, is_valid_position_run.
  by destruct (check_cells _ _ _ _).
Qed.

Lemma check_current_eq g dx dy rotation :
  check_current g dx dy rotation =
  ok ← is_valid_position (grid g) (current_piece g) dx dy rotation;
  Some (ok, g).
Proof.
  unfold check_current. rewrite is_valid_position_run_eq.
  destruct (is_valid_position _ _ _ _ _); simpl; [|done].
  by rewrite set_current_piece_same.
Qed.

Lemma is_valid_position_true grid piece dx dy rotation :
  is_valid_position grid piece dx dy rotation = Some true
  ↔ Forall (cell_free grid) (candidate_cells piece dx dy rotation).
Proof. rewrite is_valid_position_check. apply check_cells_true. Qed.

Lemma is_valid_position_total grid piece dx dy rotation :
  wf_grid grid → is_Some (is_valid_position grid piece dx dy rotation).
Proof. rewrite is_valid_position_check. apply check_cells_total. Qed.

(** C5. On a well-formed grid [is_valid_position] returns a boolean, and it
    returns [True] exactly when every cell of the piece, translated by
    [(dx, dy)] and taken at the rotation override when there is one, has
    [0 <= x < GRID_WIDTH], [y < GRID_HEIGHT] and either [y < 0] or
    [grid[y][x] == BLACK]; a cell above the grid is not looked up but is
    still bounded in [x]. *)
Theorem is_valid_position_iff grid piece dx dy rotation :
  wf_grid grid →
  ∃ b, is_valid_position grid piece dx dy rotation = Some b
       ∧ (b = true
          ↔ Forall (cell_free grid) (candidate_cells piece dx dy rotation)).
Proof.
  intros Hwf.
  destruct (is_valid_position_total grid piece dx dy rotation Hwf) as [b Hb].
  exists b. split; [done|].
  rewrite <- is_valid_position_true, Hb. naive_solver.
Qed.

Lemma is_valid_position_iff_witness :
  wf_grid empty_grid
  ∧ ∃ b, is_valid_position empty_grid (get_new_piece Shape.T) 0 (-3)
           (Some 1) = Some b
         ∧ (b = true
            ↔ Forall (cell_free empty_grid)
                (candidate_cells (get_new_piece Shape.T) 0 (-3) (Some 1))).
Proof.
  assert (wf_grid empty_grid) as Hwf.
  { split; [reflexivity|]. vm_compute. repeat constructor. }
  split; [exact Hwf|].
  exact (is_valid_position_iff empty_grid (get_new_piece Shape.T) 0 (-3)
           (Some 1) Hwf).
Defined.

(** C6, as stated, fails: called with a rotation override the method
    assigns the override to [piece.rotation] before it looks at the
    cells. *)
Lemma is_valid_position_mutates_transiently :
  ¬ never_mutates empty_grid (get_new_piece Shape.T) 0 0 (Some 1).
Proof.
  intros H.
  destruct (H (true, get_new_piece Shape.T,
               [Tetromino.set_rotation (get_new_piece Shape.T) 1;
                get_new_piece Shape.T])) as [_ HF].
  - vm_compute. reflexivity.
  - apply Forall_cons_1 in HF as [HF _]. discriminate HF.
Qed.

(** C6, amended. [is_valid_position] leaves the piece as it was passed
    when it returns, and never assigns the grid: a game whose current
    piece is checked is the same game afterwards.  During the call
    [piece.rotation] holds the rotation under test (the first assignment)
    until it is restored (the second); no other field is assigned, and
    without an override (or with the current rotation as override) the
    piece has its original fields throughout. *)
Theorem is_valid_position_restores grid piece dx dy rotation r :
  is_valid_position_run grid piece dx dy rotation = Some r →
  r.1.2 = piece
  ∧ r.2 = [Tetromino.set_rotation piece
             (default (Tetromino.rotation piece) rotation); piece]
  ∧ (default (Tetromino.rotation piece) rotation = Tetromino.rotation piece →
     Forall (λ p, p = piece) r.2)
  ∧ (∀ g b g', grid = TetrisGame.grid g → piece = current_piece g →
       check_current g dx dy rotation = Some (b, g') → g' = g).
Proof.
  rewrite is_valid_position_run_eq. intros Hr.
  destruct (is_valid_position grid piece dx dy rotation) as [ok|] eqn:Hok;
    simplify_eq/=.
  split_and!; [done|done| |].
  - intros ->. destruct piece. by repeat constructor.
  - intros g b g' -> -> Hc. rewrite check_current_eq, Hok in Hc.
    by simplify_eq/=.
Qed.

Lemma is_valid_position_restores_witness :
  is_valid_position_run empty_grid (get_new_piece Shape.T) 0 0 (Some 1)
  = Some (true, get_new_piece Shape.T,
          [Tetromino.set_rotation (get_new_piece Shape.T) 1;
           get_new_piece Shape.T])
  ∧ (true, get_new_piece Shape.T,
     [Tetromino.set_rotation (get_new_piece Shape.T) 1;
      get_new_piece Shape.T]).1.2 = get_new_piece Shape.T.
Proof.
  assert (is_valid_position_run empty_grid (get_new_piece Shape.T) 0 0 (Some 1)
          = Some (true, get_new_piece Shape.T,
                  [Tetromino.set_rotation (get_new_piece Shape.T) 1;
                   get_new_piece Shape.T])) as Hrun.
  { vm_compute. reflexivity. }
  split; [exact Hrun|].
  exact (proj1 (is_valid_position_restores _ _ _ _ _ _ Hrun)).
Defined.

(** ** [clear_lines] *)

Lemma getitem_middle {A} (pre : list A) x post :
  Py.getitem (pre ++ x :: post) (Z.of_nat (length pre)) = Some x.
Proof.
  rewrite getitem_nonneg by (rewrite length_app; simpl; lia).
  rewrite Nat2Z.id. apply list_lookup_middle. done.
Qed.

Lemma delitem_middle {A} (pre : list A) x post :
  Py.delitem (pre ++ x :: post) (Z.of_nat (length pre)) = Some (pre ++ post).
Proof.
  unfold Py.delitem.
  rewrite index_nonneg by (rewrite length_app; simpl; lia). simpl.
  by rewrite Nat2Z.id, delete_middle.
Qed.

Lemma scan_lines_complete rows pre :
  scan_lines (pre ++ rows)
    (seqZ (Z.of_nat (length pre)) (Z.of_nat (length rows)))
  = Some (complete_from (Z.of_nat (length pre)) rows).
Proof.
  revert pre. induction rows as [|row rest IH]; intros pre; [done|].
  rewrite seqZ_cons by (simpl; lia). simpl scan_lines.
  rewrite getitem_middle. simpl.
  specialize (IH (pre ++ [row])).
  rewrite <- app_assoc, length_app in IH. simpl in IH.
  replace (Z.succ (Z.of_nat (length pre)))
    with (Z.of_nat (length pre + 1)) by lia.
  replace (Z.pred (Z.of_nat (S (length rest))))
    with (Z.of_nat (length rest)) by lia.
  rewrite IH. simpl.
  replace (Z.of_nat (length pre + 1)) with (Z.of_nat (length pre) + 1) by lia.
  done.
Qed.

Lemma replicate_app_cons {A} n (x : A) l :
  replicate n x ++ x :: l = x :: replicate n x ++ l.
Proof. induction n as [|n IH]; simpl; [done|]. by rewrite IH. Qed.

Lemma delete_lines_complete rows top :
  delete_lines (top ++ rows) (complete_from (Z.of_nat (length top)) rows)
  = Some (replicate (length (List.filter row_complete rows)) empty_row
          ++ top ++ List.filter (λ row, negb (row_complete row)) rows).
Proof.
  revert top. induction rows as [|row rest IH]; intros top; [done|].
  simpl. destruct (row_complete row) eqn:Hrow; simpl.
  - rewrite delitem_middle. simpl.
    specialize (IH (empty_row :: top)). simpl length in IH.
    replace (Z.of_nat (length top) + 1) with (Z.of_nat (S (length top))) by lia.
    simpl in IH. rewrite IH. f_equal. apply replicate_app_cons.
  - specialize (IH (top ++ [row])).
    rewrite <- !app_assoc, length_app in IH. simpl in IH.
    replace (Z.of_nat (length top) + 1) with (Z.of_nat (length top + 1)) by lia.
    done.
Qed.

Lemma length_filter_split {A} (f : A → bool) (l : list A) :
  (length (List.filter f l) + length (List.filter (λ a, negb (f a)) l)
   = length l)%nat.
Proof. induction l as [|a l IH]; simpl; [done|]. destruct (f a); simpl; lia. Qed.

Lemma filter_none_id {A} (f : A → bool) (l : list A) :
  length (List.filter f l) = 0%nat →
  List.filter (λ a, negb (f a)) l = l.
Proof.
  induction l as [|a l IH]; simpl; [done|].
  destruct (f a); simpl; [done|]. intros H. by rewrite IH.
Qed.

Lemma length_complete_from o rows :
  length (complete_from o rows) = length (List.filter row_complete rows).
Proof.
  revert o. induction rows as [|row rest IH]; intros o; simpl; [done|].
  destruct (row_complete row); simpl; by rewrite IH.
Qed.

Lemma set_grid_same g : set_grid g (grid g) = g.
Proof. by destruct g. Qed.

(** What [clear_lines] computes on a grid of [GRID_HEIGHT] rows. *)
Lemma clear_lines_eq g :
  length (grid g) = Z.to_nat GRID_HEIGHT →
  clear_lines g =
  Some (Py.PyNone,
        let n := Z.of_nat (length (List.filter row_complete (grid g))) in
        if bool_decide (n > 0) then
          mk (compacted (grid g)) (current_piece g) (next_piece g)
             (score g + n * 100 * level g)
             ((lines_cleared g + n) `div` 10 + 1)
             (lines_cleared g + n) (fall_time g)
             (Z.max 50 (500 - ((lines_cleared g + n) `div` 10 + 1 - 1) * 50))
             (game_over g)
        else set_grid g (compacted (grid g))).
Proof.
  intros Hlen. unfold clear_lines, Py.range.
  assert (scan_lines (grid g) (seqZ 0 GRID_HEIGHT)
          = Some (complete_from 0 (grid g))) as ->.
  { pose proof (scan_lines_complete (grid g) []) as H.
    rewrite Hlen in H. exact H. }
  simpl.
  assert (delete_lines (grid g) (complete_from 0 (grid g))
          = Some (compacted (grid g))) as ->.
  { exact (delete_lines_complete (grid g) []). }
  simpl.
  rewrite length_complete_from. by case_bool_decide.
Qed.

(** C2, as stated, fails: [clear_lines] has no [return] statement, so the
    call evaluates to [None], not to the number of complete rows (here, on
    a fresh game, not to [0]). *)
Lemma clear_lines_returns_none :
  ¬ returns_line_count (init Shape.I Shape.O).
Proof. intros (g' & H & _). vm_compute in H. discriminate H. Qed.

(** C2, amended. [clear_lines] returns nothing ([None]).  On a grid of
    [GRID_HEIGHT] rows it removes every row whose cells are all different
    from [BLACK], puts as many empty rows on top, and keeps the other rows
    in their order; the number of complete rows is what [lines_cleared]
    grows by; and when no row is complete the game is left exactly as it
    was. *)
Theorem clear_lines_compacts g :
  length (grid g) = Z.to_nat GRID_HEIGHT →
  ∃ g', clear_lines g = Some (Py.PyNone, g')
        ∧ grid g'
          = replicate (length (List.filter row_complete (grid g))) empty_row
            ++ List.filter (λ row, negb (row_complete row)) (grid g)
        ∧ length (grid g') = length (grid g)
        ∧ lines_cleared g' = lines_cleared g + complete_rows g
        ∧ (complete_rows g = 0 → g' = g).
Proof.
  intros Hlen. rewrite (clear_lines_eq g Hlen). eexists. split; [done|].
  assert (length (compacted (grid g)) = length (grid g)) as Hc.
  { unfold compacted. rewrite length_app, length_replicate.
    apply length_filter_split. }
  fold (complete_rows g). simpl. case_bool_decide as Hn; simpl.
  - split_and!; [done|done|done|lia].
  - assert (complete_rows g = 0) as H0 by (unfold complete_rows in *; lia).
    split_and!; [done|done|lia|]. intros _.
    unfold compacted, complete_rows in *.
    assert (length (List.filter row_complete (grid g)) = 0%nat) as Hz by lia.
    rewrite Hz, filter_none_id by done. simpl. apply set_grid_same.
Qed.

Lemma clear_lines_compacts_witness :
  length (grid sandwich) = Z.to_nat GRID_HEIGHT
  ∧ ∃ g', clear_lines sandwich = Some (Py.PyNone, g')
        ∧ grid g'
          = replicate (length (List.filter row_complete (grid sandwich)))
              empty_row
            ++ List.filter (λ row, negb (row_complete row)) (grid sandwich)
        ∧ length (grid g') = length (grid sandwich)
        ∧ lines_cleared g' = lines_cleared sandwich + complete_rows sandwich
        ∧ (complete_rows sandwich = 0 → g' = sandwich).
Proof.
  split; [reflexivity|]. apply (clear_lines_compacts sandwich). reflexivity.
Defined.

(** The line-clear scenario: of the rows [complete, partial, complete] the
    partial one ends at subscript 2 under two empty rows. *)
Example clear_lines_sandwich :
  (grid <$> (snd <$> clear_lines sandwich))
  = Some ([empty_row; empty_row; partial_row] ++ replicate 17 empty_row)
  ∧ complete_rows sandwich = 2.
Proof. split; vm_compute; reflexivity. Qed.

(** C3. A [clear_lines] call that clears [n > 0] lines adds [n] to
    [lines_cleared] and [n * 100 * level] (the level before the call) to
    [score], sets [level] to [lines_cleared // 10 + 1] (of the new total)
    and [fall_speed] to [max(50, 500 - (level - 1) * 50)]: four lines from
    score 0, level 1, no lines give score 400 at level 1; a total of 10
    gives level 2 and 450 ms; a total of 90 gives level 10 and 50 ms, and
    the interval stays at 50 from there on. *)
Theorem clear_lines_scoring g :
  length (grid g) = Z.to_nat GRID_HEIGHT →
  complete_rows g > 0 →
  ∃ g', clear_lines g = Some (Py.PyNone, g')
        ∧ lines_cleared g' = lines_cleared g + complete_rows g
        ∧ score g' = score g + complete_rows g * 100 * level g
        ∧ level g' = lines_cleared g' `div` 10 + 1
        ∧ fall_speed g' = Z.max 50 (500 - (level g' - 1) * 50)
        ∧ (score g = 0 → level g = 1 → lines_cleared g = 0 →
           complete_rows g = 4 →
           score g' = 400 ∧ level g' = 1 ∧ lines_cleared g' = 4)
        ∧ (lines_cleared g' = 10 → level g' = 2 ∧ fall_speed g' = 450)
        ∧ (lines_cleared g' = 90 → level g' = 10 ∧ fall_speed g' = 50)
        ∧ (lines_cleared g' >= 90 → fall_speed g' = 50).
Proof.
  intros Hlen Hn. rewrite (clear_lines_eq g Hlen). eexists. split; [done|].
  fold (complete_rows g). simpl.
  rewrite bool_decide_eq_true_2 by done. simpl.
  split_and!; try done.
  - intros Hs Hl Hc H4. rewrite Hs, Hl, Hc, H4. done.
  - intros ->. done.
  - intros ->. done.
  - intros H90.
    assert (9 ≤ (lines_cleared g + complete_rows g) `div` 10)
      by (apply Z.div_le_lower_bound; lia).
    lia.
Qed.

Lemma clear_lines_scoring_witness :
  length (grid tetris) = Z.to_nat GRID_HEIGHT
  ∧ complete_rows tetris > 0
  ∧ ∃ g', clear_lines tetris = Some (Py.PyNone, g')
        ∧ score g' = 400 ∧ level g' = 1 ∧ lines_cleared g' = 4.
Proof.
  assert (length (grid tetris) = Z.to_nat GRID_HEIGHT) as Hlen
    by reflexivity.
  assert (complete_rows tetris > 0) as Hn by reflexivity.
  split; [exact Hlen|]. split; [exact Hn|].
  destruct (clear_lines_scoring tetris Hlen Hn)
    as (g' & Hg' & _ & _ & _ & _ & H4 & _).
  exists g'. split; [exact Hg'|].
  apply H4; reflexivity.
Defined.

(** ** The cells of a piece *)

Lemma rotation_index_in_range p :
  (Z.to_nat (Tetromino.rotation p
             `mod` Z.of_nat (length (TETROMINOES (Tetromino.shape p))))
   < length (TETROMINOES (Tetromino.shape p)))%nat.
Proof.
  assert (0 < Z.of_nat (length (TETROMINOES (Tetromino.shape p)))) as Hpos
    by (destruct (Tetromino.shape p); simpl; lia).
  pose proof (Z.mod_pos_bound (Tetromino.rotation p) _ Hpos). lia.
Qed.

Lemma get_rotated_shape_elem p :
  Tetromino.get_rotated_shape p ∈ TETROMINOES (Tetromino.shape p).
Proof.
  unfold Tetromino.get_rotated_shape. apply list_elem_of_lookup.
  eexists. apply list_lookup_lookup_total_lt, rotation_index_in_range.
Qed.

Lemma get_cells_offsets p :
  Tetromino.get_cells p
  = (λ o, (Tetromino.x p + o.1, Tetromino.y p + o.2))
      <$> offsets (Tetromino.get_rotated_shape p).
Proof.
  unfold Tetromino.get_cells, offsets.
  induction (Py.enumerate (Tetromino.get_rotated_shape p)) as [|[i row] l IH];
    [done|].
  rewrite !bind_cons, fmap_app, IH. f_equal.
  induction (Py.enumerate (String.list_ascii_of_string row)) as [|[j c] k IHk];
    [done|].
  rewrite !bind_cons, fmap_app, IHk. f_equal.
  by case_bool_decide.
Qed.

(** Every rotation state of every shape marks at least one cell, marks no
    cell twice, and marks cells of the 5x5 box only. *)
Lemma offsets_table k :
  Forall (λ state,
            offsets state ≠ [] ∧ NoDup (offsets state)
            ∧ Forall (λ o, 0 ≤ o.1 < 5 ∧ 0 ≤ o.2 < 5) (offsets state))
         (TETROMINOES k).
Proof.
  destruct k; apply (bool_decide_unpack _); vm_compute; exact I.
Qed.

Lemma offsets_piece p :
  offsets (Tetromino.get_rotated_shape p) ≠ []
  ∧ NoDup (offsets (Tetromino.get_rotated_shape p))
  ∧ Forall (λ o, 0 ≤ o.1 < 5 ∧ 0 ≤ o.2 < 5)
           (offsets (Tetromino.get_rotated_shape p)).
Proof.
  pose proof (offsets_table (Tetromino.shape p)) as H.
  rewrite list.Forall_forall in H. apply H, get_rotated_shape_elem.
Qed.

Lemma get_cells_NoDup p : NoDup (Tetromino.get_cells p).
Proof.
  rewrite get_cells_offsets. apply NoDup_fmap_2; [|apply offsets_piece].
  intros [a b] [c d] H. simpl in H. f_equal; simplify_eq; lia.
Qed.

Lemma get_cells_set_x p v :
  Tetromino.get_cells (Tetromino.set_x p v)
  = (λ c, (c.1 + (v - Tetromino.x p), c.2 + 0)) <$> Tetromino.get_cells p.
Proof.
  rewrite !get_cells_offsets, <- list_fmap_compose.
  apply list_fmap_ext. intros _ [a b] _. simpl. f_equal; lia.
Qed.

Lemma get_cells_set_y p v :
  Tetromino.get_cells (Tetromino.set_y p v)
  = (λ c, (c.1 + 0, c.2 + (v - Tetromino.y p))) <$> Tetromino.get_cells p.
Proof.
  rewrite !get_cells_offsets, <- list_fmap_compose.
  apply list_fmap_ext. intros _ [a b] _. simpl. f_equal; lia.
Qed.

Lemma set_rotation_same p :
  Tetromino.set_rotation p (Tetromino.rotation p) = p.
Proof. by destruct p. Qed.

Lemma candidate_cells_None p dx dy :
  candidate_cells p dx dy None
  = (λ c, (c.1 + dx, c.2 + dy)) <$> Tetromino.get_cells p.
Proof. unfold candidate_cells. simpl. by rewrite set_rotation_same. Qed.

Lemma candidate_cells_id p :
  candidate_cells p 0 0 None = Tetromino.get_cells p.
Proof.
  rewrite candidate_cells_None. rewrite <- (list_fmap_id (Tetromino.get_cells p)) at 2.
  apply list_fmap_ext. intros _ [a b] _. simpl. f_equal; lia.
Qed.

(** A piece that may go down one row is above the last row. *)
Lemma valid_down_bound grid p :
  is_valid_position grid p 0 1 None = Some true →
  Tetromino.y p + 1 < GRID_HEIGHT.
Proof.
  rewrite is_valid_position_true, candidate_cells_None, get_cells_offsets.
  destruct (offsets_piece p) as (Hne & _ & Hbox).
  destruct (offsets (Tetromino.get_rotated_shape p)) as [|[j i] l]; [done|].
  rewrite !fmap_cons. intros Hall.
  apply Forall_cons_1 in Hall as [(_ & Hy & _) _].
  apply Forall_cons_1 in Hbox as [[_ Hi] _]. simpl in *. lia.
Qed.

(** ** [drop_piece] and [rotate_piece] *)

Lemma set_y_same p : Tetromino.set_y p (Tetromino.y p + 0) = p.
Proof. destruct p. unfold Tetromino.set_y. simpl. f_equal. lia. Qed.

Lemma set_y_set_y p a b :
  Tetromino.set_y (Tetromino.set_y p a) b = Tetromino.set_y p b.
Proof. by destruct p. Qed.

(** The loop of [drop_piece] stops after at most [GRID_HEIGHT - y]
    iterations, [k] rows further down, where the next row is not valid
    while every row passed on the way was. *)
Lemma drop_piece_finishes n g :
  wf_grid (grid g) →
  GRID_HEIGHT - Tetromino.y (current_piece g) ≤ Z.of_nat n →
  ∃ k, 0 ≤ k
    ∧ (∀ fuel, (n < fuel)%nat →
         drop_piece fuel g
         = Finished (Some (set_current_piece g
              (Tetromino.set_y (current_piece g)
                 (Tetromino.y (current_piece g) + k)))))
    ∧ is_valid_position (grid g)
        (Tetromino.set_y (current_piece g) (Tetromino.y (current_piece g) + k))
        0 1 None = Some false
    ∧ (∀ j, 0 ≤ j < k →
         is_valid_position (grid g)
           (Tetromino.set_y (current_piece g)
              (Tetromino.y (current_piece g) + j))
           0 1 None = Some true).
Proof.
  revert g. induction n as [|n IH]; intros g Hwf Hn.
  - destruct (is_valid_position_total (grid g) (current_piece g) 0 1 None Hwf)
      as [[] Hb].
    { apply valid_down_bound in Hb. lia. }
    exists 0. rewrite set_y_same, set_current_piece_same.
    split_and!; [lia| |done|intros; lia].
    intros [|fuel] Hf; [lia|]. simpl. rewrite check_current_eq, Hb. done.
  - destruct (is_valid_position_total (grid g) (current_piece g) 0 1 None Hwf)
      as [[] Hb].
    + destruct (IH (current_down g)) as (k & Hk & Hrun & Hstop & Hway);
        [done|simpl; lia|].
      simpl in Hrun, Hstop, Hway. rewrite set_y_set_y in Hrun, Hstop.
      exists (k + 1).
      replace (Tetromino.y (current_piece g) + (k + 1))
        with (Tetromino.y (current_piece g) + 1 + k) by lia.
      split_and!; [lia| |done|].
      * intros [|fuel] Hf; [lia|]. simpl. rewrite check_current_eq, Hb. simpl.
        rewrite Hrun by lia. by destruct g.
      * intros j Hj. destruct (decide (j = 0)) as [->|Hj0].
        -- by rewrite set_y_same.
        -- specialize (Hway (j - 1)). rewrite set_y_set_y in Hway.
           replace (Tetromino.y (current_piece g) + 1 + (j - 1))
             with (Tetromino.y (current_piece g) + j) in Hway by lia.
           apply Hway. lia.
    + exists 0. rewrite set_y_same, set_current_piece_same.
      split_and!; [lia| |done|intros; lia].
      intros [|fuel] Hf; [lia|]. simpl. rewrite check_current_eq, Hb. done.
Qed.

(** C7. On a well-formed grid [drop_piece] terminates (every run with
    enough fuel gives the same game), and in the game it leaves
    [is_valid_position(current_piece, dy=1)] is false, whether or not it
    was before; the piece has only moved down, past rows where it could
    go, and the grid, the score, the level, the line count, the fall
    timer, the game-over flag, the next piece and the current piece's
    shape, colour, column and rotation are as before: nothing is locked
    and no line is cleared. *)
Theorem drop_piece_maximal g :
  wf_grid (grid g) →
  ∃ g',
    (∀ fuel, (drop_bound g < fuel)%nat →
       drop_piece fuel g = Finished (Some g'))
    ∧ is_valid_position (grid g') (current_piece g') 0 1 None = Some false
    ∧ (is_valid_position (grid g) (current_piece g) 0 1 None = Some false →
       g' = g)
    ∧ grid g' = grid g
    ∧ score g' = score g ∧ level g' = level g
    ∧ lines_cleared g' = lines_cleared g
    ∧ fall_time g' = fall_time g ∧ fall_speed g' = fall_speed g
    ∧ game_over g' = game_over g
    ∧ next_piece g' = next_piece g
    ∧ (∃ k, 0 ≤ k
         ∧ current_piece g'
           = Tetromino.set_y (current_piece g)
               (Tetromino.y (current_piece g) + k)
         ∧ ∀ j, 0 ≤ j < k →
             is_valid_position (grid g)
               (Tetromino.set_y (current_piece g)
                  (Tetromino.y (current_piece g) + j))
               0 1 None = Some true).
Proof.
  intros Hwf.
  destruct (drop_piece_finishes (drop_bound g) g Hwf)
    as (k & Hk & Hrun & Hstop & Hway); [unfold drop_bound; lia|].
  eexists. split; [exact Hrun|]. simpl.
  split_and!; try done.
  - intros Hfalse. destruct (decide (k = 0)) as [->|Hk0].
    + by rewrite set_y_same, set_current_piece_same.
    + specialize (Hway 0). rewrite set_y_same in Hway.
      rewrite Hway in Hfalse by lia. done.
  - by exists k.
Qed.

Lemma drop_piece_maximal_witness :
  wf_grid (grid (init Shape.O Shape.T))
  ∧ ∃ g', drop_piece 25 (init Shape.O Shape.T) = Finished (Some g')
          ∧ is_valid_position (grid g') (current_piece g') 0 1 None
            = Some false.
Proof.
  assert (wf_grid (grid (init Shape.O Shape.T))) as Hwf.
  { split; [reflexivity|]. vm_compute. repeat constructor. }
  split; [exact Hwf|].
  destruct (drop_piece_maximal (init Shape.O Shape.T) Hwf)
    as (g' & Hrun & Hstop & _).
  exists g'. split; [|exact Hstop].
  apply Hrun. vm_compute. lia.
Defined.

(** The hard drop of a fresh O piece ends on the floor. *)
Example drop_piece_O :
  drop_piece 25 (init Shape.O Shape.T)
  = Finished (Some (set_current_piece (init Shape.O Shape.T)
                      (Tetromino.set_y (get_new_piece Shape.O) 16))).
Proof. vm_compute. reflexivity. Qed.

(** C8. [rotate_piece] tests exactly one candidate, the rotation
    [(rotation + 1) % len(TETROMINOES[shape])] at the piece's own anchor,
    and commits it if and only if [is_valid_position] holds for it; when
    it does not, the game is untouched: the rotation and the cells of the
    piece are what they were. *)
Theorem rotate_piece_commits_iff_valid g :
  wf_grid (grid g) →
  ∃ b g',
    is_valid_position (grid g) (current_piece g) 0 0
      (Some (new_rotation (current_piece g))) = Some b
    ∧ rotate_piece g = Some g'
    ∧ (b = true →
       g' = set_current_piece g
              (Tetromino.set_rotation (current_piece g)
                 (new_rotation (current_piece g))))
    ∧ (b = false →
       g' = g
       ∧ Tetromino.rotation (current_piece g')
         = Tetromino.rotation (current_piece g)
       ∧ Tetromino.get_cells (current_piece g')
         = Tetromino.get_cells (current_piece g)).
Proof.
  intros Hwf.
  destruct (is_valid_position_total (grid g) (current_piece g) 0 0
              (Some (new_rotation (current_piece g))) Hwf) as [b Hb].
  unfold rotate_piece. fold (new_rotation (current_piece g)).
  rewrite check_current_eq, Hb. simpl.
  exists b. eexists. split_and!; [done|done| |]; intros ->; done.
Qed.

Lemma rotate_piece_commits_iff_valid_witness :
  wf_grid (grid (init Shape.T Shape.L))
  ∧ ∃ b g',
      is_valid_position (grid (init Shape.T Shape.L))
        (current_piece (init Shape.T Shape.L)) 0 0
        (Some (new_rotation (current_piece (init Shape.T Shape.L)))) = Some b
      ∧ rotate_piece (init Shape.T Shape.L) = Some g'.
Proof.
  assert (wf_grid (grid (init Shape.T Shape.L))) as Hwf.
  { split; [reflexivity|]. vm_compute. repeat constructor. }
  split; [exact Hwf|].
  destruct (rotate_piece_commits_iff_valid (init Shape.T Shape.L) Hwf)
    as (b & g' & Hb & Hr & _).
  exists b, g'. split; [exact Hb|exact Hr].
Defined.

(** A T piece against the left wall: its third rotation state reaches
    column -1 there, so turning from the second is refused; in the open a
    turn is accepted, and wraps to state 0 after state 3. *)
Example rotate_piece_refused :
  let g := set_current_piece (init Shape.T Shape.L)
             (Tetromino.mk (-1) 5 Shape.T PURPLE 1) in
  rotate_piece g = Some g.
Proof. vm_compute. reflexivity. Qed.

Example rotate_piece_wraps :
  let g := set_current_piece (init Shape.T Shape.L)
             (Tetromino.mk 3 5 Shape.T PURPLE 3) in
  Tetromino.rotation <$> (current_piece <$> rotate_piece g) = Some 0.
Proof. vm_compute. reflexivity. Qed.

(** ** Writing into the grid *)

Lemma setitem_length {A} (l l' : list A) i v :
  Py.setitem l i v = Some l' → length l' = length l.
Proof.
  unfold Py.setitem. intros H.
  destruct (Py.index (length l) i); simplify_eq/=. apply length_insert.
Qed.

Lemma setitem_is_Some {A} (l : list A) i v :
  0 ≤ i < Z.of_nat (length l) → is_Some (Py.setitem l i v).
Proof.
  intros H. unfold Py.setitem. rewrite index_nonneg by done. by eexists.
Qed.

Lemma getitem_setitem_eq {A} (l l' : list A) i v :
  Py.setitem l i v = Some l' → Py.getitem l' i = Some v.
Proof.
  intros H. pose proof (setitem_length _ _ _ _ H) as Hlen.
  unfold Py.setitem, Py.getitem in *. rewrite Hlen.
  destruct (Py.index (length l) i) as [k|] eqn:Hk; simplify_eq/=.
  apply list_lookup_insert_eq. by apply index_Some in Hk.
Qed.

(** A subscript [j] after the assignment [l[i] = v] either finds what it
    found before, or it names the element [i] names and finds [v]. *)
Lemma getitem_setitem {A} (l l' : list A) i j u v :
  Py.setitem l i v = Some l' →
  Py.getitem l j = Some u →
  Py.getitem l' j = Some u
  ∨ (Py.getitem l i = Some u ∧ Py.getitem l' j = Some v).
Proof.
  intros H Hj. pose proof (setitem_length _ _ _ _ H) as Hlen.
  unfold Py.setitem, Py.getitem in *. rewrite Hlen.
  destruct (Py.index (length l) i) as [k|] eqn:Hk; simplify_eq/=.
  destruct (Py.index (length l) j) as [k'|] eqn:Hk'; simplify_eq/=.
  destruct (decide (k = k')) as [->|Hne].
  - right. split; [done|]. apply list_lookup_insert_eq.
    by apply index_Some in Hk.
  - left. by rewrite list_lookup_insert_ne.
Qed.

Lemma grid_get_set_eq grid grid' y x v :
  grid_set grid y x v = Some grid' → grid_get grid' y x = Some v.
Proof.
  unfold grid_set, grid_get. intros H.
  destruct (Py.getitem grid y) as [row|] eqn:Hrow; simplify_eq/=.
  destruct (Py.setitem row x v) as [row'|] eqn:Hrow'; simplify_eq/=.
  rewrite (getitem_setitem_eq _ _ _ _ H). simpl.
  by apply getitem_setitem_eq in Hrow'.
Qed.

Lemma grid_get_set_keep grid grid' y x y' x' v :
  grid_set grid y x v = Some grid' →
  grid_get grid y' x' = Some v → grid_get grid' y' x' = Some v.
Proof.
  unfold grid_set, grid_get. intros H Hget.
  destruct (Py.getitem grid y) as [row|] eqn:Hrow; simplify_eq/=.
  destruct (Py.setitem row x v) as [row'|] eqn:Hrow'; simplify_eq/=.
  destruct (Py.getitem grid y') as [r|] eqn:Hr; simplify_eq/=.
  destruct (getitem_setitem _ _ _ _ _ _ H Hr) as [->|[Hsame ->]]; simpl.
  - done.
  - assert (r = row) as -> by congruence.
    destruct (getitem_setitem _ _ _ _ _ _ Hrow' Hget) as [?|[_ ?]]; done.
Qed.

Lemma grid_set_wf grid grid' y x v :
  grid_set grid y x v = Some grid' → wf_grid grid → wf_grid grid'.
Proof.
  unfold grid_set. intros H [Hlen Hrows].
  destruct (Py.getitem grid y) as [row|] eqn:Hrow; simplify_eq/=.
  destruct (Py.setitem row x v) as [row'|] eqn:Hrow'; simplify_eq/=.
  split.
  - by rewrite (setitem_length _ _ _ _ H).
  - unfold Py.setitem, Py.getitem in *.
    destruct (Py.index (length grid) y) as [k|]; simplify_eq/=.
    apply Forall_insert; [done|].
    destruct (Py.index (length row) x) as [kx|]; simplify_eq/=.
    rewrite length_insert. rewrite list.Forall_forall in Hrows.
    apply Hrows. by eapply list_elem_of_lookup_2.
Qed.

Lemma grid_set_Forall (P : rgb → Prop) grid grid' y x v :
  grid_set grid y x v = Some grid' → P v →
  Forall (Forall P) grid → Forall (Forall P) grid'.
Proof.
  unfold grid_set. intros H Hv HP.
  destruct (Py.getitem grid y) as [row|] eqn:Hrow; simplify_eq/=.
  destruct (Py.setitem row x v) as [row'|] eqn:Hrow'; simplify_eq/=.
  unfold Py.setitem, Py.getitem in *.
  destruct (Py.index (length grid) y) as [k|]; simplify_eq/=.
  apply Forall_insert; [done|].
  destruct (Py.index (length row) x) as [kx|]; simplify_eq/=.
  apply Forall_insert; [|done].
  rewrite list.Forall_forall in HP. apply HP. by eapply list_elem_of_lookup_2.
Qed.

Lemma grid_set_is_Some grid y x v :
  wf_grid grid → 0 ≤ y < GRID_HEIGHT → 0 ≤ x < GRID_WIDTH →
  is_Some (grid_set grid y x v).
Proof.
  intros [Hlen Hrows] Hy Hx. unfold grid_set.
  rewrite getitem_nonneg by lia.
  destruct (lookup_lt_is_Some_2 grid (Z.to_nat y)) as [row Hrow]; [lia|].
  rewrite Hrow. simpl.
  destruct (setitem_is_Some row x v) as [row' ->].
  { rewrite list.Forall_forall in Hrows.
    rewrite (Hrows row) by (by eapply list_elem_of_lookup_2). lia. }
  simpl. apply setitem_is_Some. lia.
Qed.

(** [place_piece] succeeds for a piece at a valid position and keeps the
    shape of the grid. *)
Lemma place_cells_is_Some grid color cells :
  wf_grid grid →
  Forall (λ c, 0 ≤ c.1 < GRID_WIDTH ∧ c.2 < GRID_HEIGHT) cells →
  ∃ grid', place_cells grid color cells = Some grid' ∧ wf_grid grid'.
Proof.
  revert grid. induction cells as [|[x y] rest IH]; intros grid Hwf Hall.
  - by exists grid.
  - apply Forall_cons_1 in Hall as [[Hx Hy] Hrest]. simpl in *.
    case_bool_decide; [|by apply IH].
    destruct (grid_set_is_Some grid y x color) as [grid1 Hset];
      [done|lia|lia|].
    rewrite Hset. simpl. apply IH; [|done]. by eapply grid_set_wf.
Qed.

Lemma place_cells_wf grid grid' color cells :
  place_cells grid color cells = Some grid' → wf_grid grid → wf_grid grid'.
Proof.
  revert grid. induction cells as [|[x y] rest IH]; intros grid H Hwf;
    simpl in H; [by simplify_eq|].
  case_bool_decide; [|by eapply IH].
  destruct (grid_set grid y x color) as [grid1|] eqn:Hset; simplify_eq/=.
  eapply IH; [done|]. by eapply grid_set_wf.
Qed.

Lemma place_cells_Forall (P : rgb → Prop) grid grid' color cells :
  place_cells grid color cells = Some grid' → P color →
  Forall (Forall P) grid → Forall (Forall P) grid'.
Proof.
  revert grid. induction cells as [|[x y] rest IH]; intros grid H Hc HP;
    simpl in H; [by simplify_eq|].
  case_bool_decide; [|by eapply IH].
  destruct (grid_set grid y x color) as [grid1|] eqn:Hset; simplify_eq/=.
  eapply IH; [done|done|]. by eapply grid_set_Forall.
Qed.

(** After [place_piece] every cell of the piece on or below row 0 holds
    the colour of the piece. *)
Lemma place_cells_written grid grid' color cells :
  place_cells grid color cells = Some grid' →
  (∀ y x, grid_get grid y x = Some color → grid_get grid' y x = Some color)
  ∧ Forall (λ c, 0 ≤ c.2 → grid_get grid' c.2 c.1 = Some color) cells.
Proof.
  revert grid. induction cells as [|[x y] rest IH]; intros grid H;
    simpl in H; [by simplify_eq|].
  case_bool_decide.
  - destruct (grid_set grid y x color) as [grid1|] eqn:Hset; simplify_eq/=.
    destruct (IH _ H) as [Hkeep Hrest]. split.
    + intros y' x' Hget. apply Hkeep. by eapply grid_get_set_keep.
    + constructor; [|done]. intros _. simpl.
      apply Hkeep. by eapply grid_get_set_eq.
  - destruct (IH _ H) as [Hkeep Hrest]. split; [done|].
    constructor; [|done]. simpl. lia.
Qed.

(** C10. None of the seven colours of [TETROMINO_COLORS] is [BLACK], so a
    piece built by [Tetromino] (its colour is the table's entry for its
    shape) leaves, in every cell [place_piece] writes, a colour that the
    emptiness test [== BLACK] rejects: no position that covers such a
    cell is valid afterwards. *)
Theorem placed_cells_not_black g piece g' :
  Tetromino.color piece = TETROMINO_COLORS (Tetromino.shape piece) →
  place_piece g piece = Some g' →
  (∀ k, TETROMINO_COLORS k ≠ BLACK)
  ∧ Forall (λ c, 0 ≤ c.2 →
               ∃ v, grid_get (grid g') c.2 c.1 = Some v ∧ v ≠ BLACK)
           (Tetromino.get_cells piece)
  ∧ (∀ q dx dy rotation c,
       c ∈ Tetromino.get_cells piece → 0 ≤ c.2 →
       c ∈ candidate_cells q dx dy rotation →
       is_valid_position (grid g') q dx dy rotation ≠ Some true).
Proof.
  intros Hcolor Hplace.
  assert (∀ k, TETROMINO_COLORS k ≠ BLACK) as Htable
    by (intros []; discriminate).
  unfold place_piece in Hplace.
  destruct (place_cells (grid g) (Tetromino.color piece)
              (Tetromino.get_cells piece)) as [grid'|] eqn:Hcells;
    simplify_eq/=.
  destruct (place_cells_written _ _ _ _ Hcells) as [_ Hwritten].
  split_and!; [done| |].
  - eapply list.Forall_impl; [exact Hwritten|]. intros c Hc Hy. simpl in Hc.
    eexists. split; [by apply Hc|]. rewrite Hcolor. apply Htable.
  - intros q dx dy rotation c Hin Hy Hcand Hvalid.
    rewrite is_valid_position_true, list.Forall_forall in Hvalid.
    destruct (Hvalid c Hcand) as (_ & _ & [Hneg|Hblack]); [lia|].
    rewrite list.Forall_forall in Hwritten.
    rewrite (Hwritten c Hin Hy), Hcolor in Hblack.
    simplify_eq. by eapply Htable.
Qed.

Lemma placed_cells_not_black_witness :
  Tetromino.color (get_new_piece Shape.I)
  = TETROMINO_COLORS (Tetromino.shape (get_new_piece Shape.I))
  ∧ (∃ g', place_piece (init Shape.I Shape.O) (get_new_piece Shape.I)
           = Some g'
         ∧ Forall (λ c, 0 ≤ c.2 →
                      ∃ v, grid_get (grid g') c.2 c.1 = Some v ∧ v ≠ BLACK)
                  (Tetromino.get_cells (get_new_piece Shape.I))).
Proof.
  split; [reflexivity|].
  eexists. split; [vm_compute; reflexivity|].
  refine (proj1 (proj2 (placed_cells_not_black (init Shape.I Shape.O)
                          (get_new_piece Shape.I) _ eq_refl _))).
  vm_compute. reflexivity.
Defined.

(** ** The invariant of the game *)

Lemma check_cells_shift grid dx dy cells :
  check_cells grid dx dy cells
  = check_cells grid 0 0 ((λ c, (c.1 + dx, c.2 + dy)) <$> cells).
Proof.
  induction cells as [|[x y] rest IH]; [done|].
  rewrite fmap_cons. simpl. rewrite !Z.add_0_r, IH. done.
Qed.

Lemma is_valid_position_check_None grid p dx dy :
  is_valid_position grid p dx dy None
  = check_cells grid dx dy (Tetromino.get_cells p).
Proof. rewrite is_valid_position_check. simpl. by rewrite set_rotation_same. Qed.

Lemma valid_set_x grid p dx :
  is_valid_position grid (Tetromino.set_x p (Tetromino.x p + dx)) 0 0 None
  = is_valid_position grid p dx 0 None.
Proof.
  rewrite !is_valid_position_check_None.
  rewrite (check_cells_shift grid dx 0), get_cells_set_x.
  f_equal. apply list_fmap_ext. intros _ [a b] _. simpl. f_equal; lia.
Qed.

Lemma valid_set_y grid p dy :
  is_valid_position grid (Tetromino.set_y p (Tetromino.y p + dy)) 0 0 None
  = is_valid_position grid p 0 dy None.
Proof.
  rewrite !is_valid_position_check_None.
  rewrite (check_cells_shift grid 0 dy), get_cells_set_y.
  f_equal. apply list_fmap_ext. intros _ [a b] _. simpl. f_equal; lia.
Qed.

Lemma valid_set_rotation grid p r :
  is_valid_position grid (Tetromino.set_rotation p r) 0 0 None
  = is_valid_position grid p 0 0 (Some r).
Proof.
  rewrite is_valid_position_check_None, is_valid_position_check. done.
Qed.

Lemma wf_empty_grid : wf_grid empty_grid.
Proof. split; [reflexivity|]. vm_compute. repeat constructor. Qed.

Lemma tags_empty_grid : Forall (Forall tag_or_empty) empty_grid.
Proof.
  apply Forall_replicate, Forall_replicate. by left.
Qed.

Lemma spawn_valid choice :
  is_valid_position empty_grid (get_new_piece choice) 0 0 None = Some true.
Proof. destruct choice; vm_compute; reflexivity. Qed.

Lemma game_inv_init c1 c2 : game_inv (init c1 c2).
Proof.
  split_and!; simpl;
    [apply wf_empty_grid|apply tags_empty_grid|done|done|].
  intros _. apply spawn_valid.
Qed.

Lemma game_inv_reset c1 c2 g : game_inv (reset_game c1 c2 g).
Proof. exact (game_inv_init c1 c2). Qed.

Lemma game_inv_move dx g g' :
  move_piece dx g = Some g' → game_inv g → game_inv g'.
Proof.
  unfold move_piece. rewrite check_current_eq.
  intros H (Hwf & Htags & Hc & Hn & Hvalid).
  destruct (is_valid_position (grid g) (current_piece g) dx 0 None)
    as [[]|] eqn:Hb; simplify_eq/=; [|done].
  split_and!; simpl; [done|done|done|done|].
  intros _. by rewrite valid_set_x.
Qed.

Lemma game_inv_rotate g g' :
  rotate_piece g = Some g' → game_inv g → game_inv g'.
Proof.
  unfold rotate_piece. rewrite check_current_eq.
  intros H (Hwf & Htags & Hc & Hn & Hvalid).
  destruct (is_valid_position (grid g) (current_piece g) 0 0 _)
    as [[]|] eqn:Hb; simplify_eq/=; [|done].
  split_and!; simpl; [done|done|done|done|].
  intros _. by rewrite valid_set_rotation.
Qed.

Lemma game_inv_down g :
  is_valid_position (grid g) (current_piece g) 0 1 None = Some true →
  game_inv g → game_inv (current_down g).
Proof.
  intros Hb (Hwf & Htags & Hc & Hn & Hvalid).
  split_and!; simpl; [done|done|done|done|].
  intros _. by rewrite valid_set_y.
Qed.

Lemma game_inv_soft_drop g g' :
  soft_drop g = Some g' → game_inv g → game_inv g'.
Proof.
  unfold soft_drop. rewrite check_current_eq. intros H Hinv.
  destruct (is_valid_position (grid g) (current_piece g) 0 1 None)
    as [[]|] eqn:Hb; simplify_eq/=; [|done].
  by apply game_inv_down.
Qed.

Lemma game_inv_drop fuel g g' :
  drop_piece fuel g = Finished (Some g') → game_inv g → game_inv g'.
Proof.
  revert g. induction fuel as [|fuel IH]; intros g H Hinv; [done|].
  simpl in H. rewrite check_current_eq in H.
  destruct (is_valid_position (grid g) (current_piece g) 0 1 None)
    as [[]|] eqn:Hb; simplify_eq/=; [|done].
  eapply IH; [done|]. by apply game_inv_down.
Qed.

(** ** Locking a piece *)

Lemma compacted_length grid : length (compacted grid) = length grid.
Proof.
  unfold compacted. rewrite length_app, length_replicate.
  apply length_filter_split.
Qed.

Lemma Forall_List_filter {A} (P : A → Prop) (f : A → bool) (l : list A) :
  Forall P l → Forall P (List.filter f l).
Proof.
  induction 1 as [|a l Ha Hl IH]; simpl; [constructor|].
  destruct (f a); [by constructor|done].
Qed.

Lemma compacted_Forall (P : list rgb → Prop) grid :
  P empty_row → Forall P grid → Forall P (compacted grid).
Proof.
  intros He HP. unfold compacted. apply Forall_app. split.
  - by apply Forall_replicate.
  - by apply Forall_List_filter.
Qed.

Lemma compacted_wf grid : wf_grid grid → wf_grid (compacted grid).
Proof.
  intros [Hlen Hrows]. split.
  - by rewrite compacted_length.
  - by apply compacted_Forall.
Qed.

Lemma clear_lines_grid g r :
  length (grid g) = Z.to_nat GRID_HEIGHT →
  clear_lines g = Some r →
  r.1 = Py.PyNone
  ∧ grid r.2 = compacted (grid g)
  ∧ current_piece r.2 = current_piece g
  ∧ next_piece r.2 = next_piece g
  ∧ fall_time r.2 = fall_time g
  ∧ game_over r.2 = game_over g.
Proof.
  intros Hlen. rewrite (clear_lines_eq g Hlen). intros H. simplify_eq/=.
  case_bool_decide; by destruct g.
Qed.

(** The [else] branch of [update] on a well-formed grid whose current
    piece is at a valid position. *)
Lemma lock_piece_spec choice g :
  wf_grid (grid g) →
  is_valid_position (grid g) (current_piece g) 0 0 None = Some true →
  ∃ g1 g2 b,
    place_piece g (current_piece g) = Some g1
    ∧ wf_grid (grid g1)
    ∧ clear_lines g1 = Some (Py.PyNone, g2)
    ∧ grid g2 = compacted (grid g1)
    ∧ is_valid_position (grid g2) (next_piece g) 0 0 None = Some b
    ∧ lock_piece choice g
      = Some (mk (grid g2) (next_piece g) (get_new_piece choice)
                 (score g2) (level g2) (lines_cleared g2) (fall_time g)
                 (fall_speed g2) (if b then game_over g else true)).
Proof.
  intros Hwf Hvalid.
  rewrite is_valid_position_true, candidate_cells_id in Hvalid.
  destruct (place_cells_is_Some (grid g) (Tetromino.color (current_piece g))
              (Tetromino.get_cells (current_piece g)) Hwf)
    as (grid1 & Hplace & Hwf1).
  { eapply list.Forall_impl; [exact Hvalid|].
    intros c (Hx & Hy & _). done. }
  unfold lock_piece, place_piece. rewrite Hplace. simpl.
  destruct Hwf1 as [Hlen1 Hrows1].
  destruct (clear_lines (set_grid g grid1)) as [r|] eqn:Hclear;
    [|by rewrite clear_lines_eq in Hclear].
  destruct (clear_lines_grid (set_grid g grid1) r Hlen1 Hclear)
    as (Hnone & Hgrid & Hcur & Hnext & Hft & Hover).
  destruct r as [v g2]. simpl in *. subst v.
  assert (wf_grid (grid g2)) as Hwf2
    by (rewrite Hgrid; by apply compacted_wf).
  rewrite check_current_eq. simpl. rewrite Hnext.
  destruct (is_valid_position_total (grid g2) (next_piece g) 0 0 None Hwf2)
    as [b Hb].
  rewrite Hb. simpl.
  exists (set_grid g grid1), g2, b.
  split_and!; [done|done|done|done|done|].
  rewrite <- Hft, <- Hover. by destruct b.
Qed.

Lemma game_inv_lock choice g g' :
  lock_piece choice g = Some g' → game_inv g → game_over g = false →
  game_inv g'.
Proof.
  intros Hlock (Hwf & Htags & Hc & Hn & Hvalid) Hover.
  destruct (lock_piece_spec choice g Hwf (Hvalid Hover))
    as (g1 & g2 & b & Hplace & Hwf1 & Hclear & Hgrid & Hb & Heq).
  rewrite Heq in Hlock. simplify_eq/=.
  unfold place_piece in Hplace.
  destruct (place_cells (grid g) _ _) as [grid1|] eqn:Hcells; simplify_eq/=.
  split_and!; simpl.
  - rewrite Hgrid. by apply compacted_wf.
  - rewrite Hgrid. apply compacted_Forall.
    + apply Forall_replicate. by left.
    + eapply place_cells_Forall; [done| |done]. right. by eexists.
  - done.
  - done.
  - by destruct b.
Qed.

Lemma game_inv_update choice dt g g' :
  update choice dt g = Some g' → game_inv g → game_inv g'.
Proof.
  unfold update. intros H Hinv.
  destruct (game_over g) eqn:Hover; [by simplify_eq|].
  assert (game_inv (set_fall_time g (fall_time g + dt))) as Hinv1.
  { destruct Hinv as (? & ? & ? & ? & Hv). split_and!; simpl; try done. }
  simpl in H. case_bool_decide; [|by simplify_eq].
  rewrite check_current_eq in H. simpl in H.
  destruct (is_valid_position (grid g) (current_piece g) 0 1 None)
    as [[]|] eqn:Hb; simplify_eq/=.
  - pose proof (game_inv_down _ Hb Hinv1) as (? & ? & ? & ? & Hv).
    split_and!; simpl in *; try done.
  - destruct (lock_piece choice _) as [g1|] eqn:Hlock; simplify_eq/=.
    pose proof (game_inv_lock _ _ _ Hlock Hinv1 Hover) as (? & ? & ? & ? & Hv).
    split_and!; simpl in *; try done.
Qed.

Lemma step_game_inv g o g' : step g o g' → game_inv g → game_inv g'.
Proof.
  destruct o; simpl.
  - apply game_inv_update.
  - apply game_inv_move.
  - apply game_inv_rotate.
  - apply game_inv_soft_drop.
  - intros [fuel H]. by eapply game_inv_drop.
  - intros -> _. apply game_inv_reset.
Qed.

Lemma reachable_game_inv g : reachable g → game_inv g.
Proof.
  induction 1 as [c1 c2|g o g' _ IH Hstep].
  - apply game_inv_init.
  - by eapply step_game_inv.
Qed.

Lemma exec_step o g g' : exec o g = Some g' → step g o g'.
Proof.
  destruct o; unfold exec, step; try done.
  - destruct (drop_piece (S (drop_bound g)) g) as [r|] eqn:Hdrop; [|done].
    intros ->. by eexists.
  - by intros [= <-].
Qed.

Lemma exec_all_reachable ops g g' :
  exec_all ops g = Some g' → reachable g → reachable g'.
Proof.
  revert g. induction ops as [|o rest IH]; intros g H Hg; simpl in H.
  - by simplify_eq.
  - destruct (exec o g) as [g1|] eqn:Hexec; simplify_eq/=.
    eapply IH; [done|]. eapply reachable_step; [done|]. by apply exec_step.
Qed.

(** ** [update] *)

(** [update] in a game that is not over, case by case. *)
Lemma update_cases choice dt g :
  wf_grid (grid g) →
  game_over g = false →
  (fall_time g + dt < fall_speed g →
   update choice dt g = Some (set_fall_time g (fall_time g + dt)))
  ∧ (fall_time g + dt >= fall_speed g →
     is_valid_position (grid g) (current_piece g) 0 1 None = Some true →
     update choice dt g = Some (set_fall_time (current_down g) 0))
  ∧ (fall_time g + dt >= fall_speed g →
     is_valid_position (grid g) (current_piece g) 0 1 None = Some false →
     is_valid_position (grid g) (current_piece g) 0 0 None = Some true →
     ∃ g1 g2 b,
       place_piece (set_fall_time g (fall_time g + dt)) (current_piece g)
       = Some g1
       ∧ clear_lines g1 = Some (Py.PyNone, g2)
       ∧ is_valid_position (grid g2) (next_piece g) 0 0 None = Some b
       ∧ update choice dt g
         = Some (mk (grid g2) (next_piece g) (get_new_piece choice)
                    (score g2) (level g2) (lines_cleared g2) 0
                    (fall_speed g2) (negb b))).
Proof.
  intros Hwf Hover. unfold update. rewrite Hover. simpl.
  split_and!.
  - intros Hlt. by rewrite bool_decide_eq_false_2 by lia.
  - intros Hge Hb. rewrite bool_decide_eq_true_2 by done.
    rewrite check_current_eq. simpl. rewrite Hb. simpl. by destruct g.
  - intros Hge Hb Hvalid. rewrite bool_decide_eq_true_2 by done.
    rewrite check_current_eq. simpl. rewrite Hb. simpl.
    destruct (lock_piece_spec choice (set_fall_time g (fall_time g + dt)))
      as (g1 & g2 & b & Hplace & _ & Hclear & _ & Hvb & ->); [done|done|].
    simpl in *. exists g1, g2, b. rewrite Hover.
    split_and!; [done|done|done|]. by destruct b.
Qed.

(** An O piece resting on the floor is locked by the next step: it fills
    four cells of the two bottom rows, and the game goes on. *)
Example update_locks_O :
  let g := set_current_piece (init Shape.O Shape.T)
             (Tetromino.set_y (get_new_piece Shape.O) 16) in
  (λ g', (grid g' !! 18%nat, grid g' !! 19%nat,
          current_piece g', game_over g', fall_time g'))
    <$> update Shape.L 500 g
  = Some (Some (<[4%nat:=YELLOW]> (<[5%nat:=YELLOW]> empty_row)),
          Some (<[4%nat:=YELLOW]> (<[5%nat:=YELLOW]> empty_row)),
          get_new_piece Shape.T, false, 0).
Proof. vm_compute. reflexivity. Qed.

(** Once the game is over [update] does nothing. *)
Lemma update_game_over choice dt g :
  game_over g = true → update choice dt g = Some g.
Proof. intros H. unfold update. by rewrite H. Qed.

(** The key handlers never touch anything but the current piece. *)
Lemma handlers_frame g o g' :
  match o with Tick _ _ | Reset _ _ => False | _ => True end →
  step g o g' → same_but_current g g'.
Proof.
  destruct o; simpl; try done; intros _.
  - unfold move_piece. rewrite check_current_eq. intros H.
    destruct (is_valid_position (grid g) (current_piece g) dx 0 None)
      as [[]|]; simplify_eq/=; by repeat split.
  - unfold rotate_piece. rewrite check_current_eq. intros H.
    destruct (is_valid_position (grid g) (current_piece g) 0 0 _)
      as [[]|]; simplify_eq/=; by repeat split.
  - unfold soft_drop. rewrite check_current_eq. intros H.
    destruct (is_valid_position (grid g) (current_piece g) 0 1 None)
      as [[]|]; simplify_eq/=; by repeat split.
  - intros [fuel H]. revert g H.
    induction fuel as [|fuel IH]; intros g H; [done|].
    simpl in H. rewrite check_current_eq in H.
    destruct (is_valid_position (grid g) (current_piece g) 0 1 None)
      as [[]|]; simplify_eq/=; [|by repeat split].
    apply IH in H. unfold same_but_current in *. simpl in H. done.
Qed.

(** ** Runs *)

(** C1 says that once [game_over] is true [move_piece], [rotate_piece],
    [drop_piece], the soft drop and [update] change nothing.  The code
    does otherwise for the key handlers: the game that [run] reaches by
    dropping four I pieces on one another is over, and there A moves the
    current piece one column to the left, W turns it, and after A both S
    and Space move it down.  Only [update] tests [game_over]: it leaves
    that game as it is. *)
Theorem handlers_ignore_game_over :
  ∃ g, exec_all topped_out (init Shape.I Shape.I) = Some g
       ∧ reachable g
       ∧ game_over g = true
       ∧ current_piece g = get_new_piece Shape.I
       ∧ current_piece <$> move_piece (-1) g
         = Some (Tetromino.set_x (get_new_piece Shape.I) 2)
       ∧ current_piece <$> rotate_piece g
         = Some (Tetromino.set_rotation (get_new_piece Shape.I) 1)
       ∧ current_piece <$> (move_piece (-1) g ≫= soft_drop)
         = Some (Tetromino.mk 2 1 Shape.I CYAN 0)
       ∧ current_piece <$> (move_piece (-1) g ≫= exec HardDrop)
         = Some (Tetromino.mk 2 15 Shape.I CYAN 0)
       ∧ update Shape.I 500 g = Some g.
Proof.
  destruct (exec_all topped_out (init Shape.I Shape.I)) as [g|] eqn:Hg;
    [|by vm_compute in Hg].
  exists g. split; [done|]. split.
  { eapply exec_all_reachable; [exact Hg|]. constructor. }
  vm_compute in Hg. simplify_eq.
  split_and!; vm_compute; reflexivity.
Qed.



(** No call raises in a game that [run] can reach. *)
Lemma reachable_progress g o : reachable g → ∃ g', step g o g'.
Proof.
  intros Hreach.
  destruct (reachable_game_inv g Hreach) as (Hwf & _ & _ & _ & Hvalid).
  destruct o as [choice dt|dx| | | |c1 c2]; simpl.
  - unfold update. destruct (game_over g) eqn:Hover; [by eexists|]. simpl.
    case_bool_decide; [|by eexists].
    rewrite check_current_eq. simpl.
    destruct (is_valid_position_total (grid g) (current_piece g) 0 1 None Hwf)
      as [[] ->]; simpl; [by eexists|].
    destruct (lock_piece_spec choice (set_fall_time g (fall_time g + dt)))
      as (g1 & g2 & b & _ & _ & _ & _ & _ & ->); [done|by apply Hvalid|].
    by eexists.
  - unfold move_piece. rewrite check_current_eq.
    destruct (is_valid_position_total (grid g) (current_piece g) dx 0 None Hwf)
      as [b ->]. by eexists.
  - unfold rotate_piece. rewrite check_current_eq.
    destruct (is_valid_position_total (grid g) (current_piece g) 0 0
                (Some (new_rotation (current_piece g))) Hwf) as [b Hb].
    unfold new_rotation in Hb. rewrite Hb. by eexists.
  - unfold soft_drop. rewrite check_current_eq.
    destruct (is_valid_position_total (grid g) (current_piece g) 0 1 None Hwf)
      as [b ->]. by eexists.
  - destruct (drop_piece_finishes (drop_bound g) g Hwf)
      as (k & _ & Hrun & _); [unfold drop_bound; lia|].
    eexists. exists (S (drop_bound g)). apply Hrun. lia.
  - by eexists.
Qed.



(** One call is one row, however long the frame took. *)
Example update_one_row :
  update Shape.J 5000 (init Shape.T Shape.L)
  = Some (set_fall_time (current_down (init Shape.T Shape.L)) 0).
Proof. vm_compute. reflexivity. Qed.

(** Nothing but [reset_game] makes a game that is over go on. *)
Lemma only_reset_clears_game_over g o g' :
  step g o g' → game_over g = true → game_over g' = false →
  ∃ c1 c2, o = Reset c1 c2.
Proof.
  intros Hstep Hover Hover'. destruct o as [choice dt|dx| | | |c1 c2].
  - simpl in Hstep. rewrite update_game_over in Hstep by done.
    simplify_eq. congruence.
  - apply handlers_frame in Hstep as (_ & _ & _ & _ & _ & _ & _ & ?);
      [congruence|done].
  - apply handlers_frame in Hstep as (_ & _ & _ & _ & _ & _ & _ & ?);
      [congruence|done].
  - apply handlers_frame in Hstep as (_ & _ & _ & _ & _ & _ & _ & ?);
      [congruence|done].
  - apply handlers_frame in Hstep as (_ & _ & _ & _ & _ & _ & _ & ?);
      [congruence|done].
  - by eexists _, _.
Qed.

(** ** More on the cells of a piece *)

Lemma offsets_four k :
  Forall (λ state, length (offsets state) = 4%nat) (TETROMINOES k).
Proof. destruct k; vm_compute; repeat constructor. Qed.

Lemma get_cells_length p : length (Tetromino.get_cells p) = 4%nat.
Proof.
  rewrite get_cells_offsets, length_fmap.
  pose proof (offsets_four (Tetromino.shape p)) as H.
  rewrite list.Forall_forall in H. apply H, get_rotated_shape_elem.
Qed.

Lemma get_cells_box p :
  Forall (λ c, Tetromino.x p ≤ c.1 < Tetromino.x p + 5
               ∧ Tetromino.y p ≤ c.2 < Tetromino.y p + 5)
         (Tetromino.get_cells p).
Proof.
  rewrite get_cells_offsets. apply Forall_fmap.
  destruct (offsets_piece p) as (_ & _ & Hbox).
  eapply list.Forall_impl; [exact Hbox|]. intros [j i] H. simpl in *. lia.
Qed.

(** X1. Whatever its shape, anchor and rotation (any integer, taken
    modulo the number of states), a piece has four cells, pairwise
    distinct, in the 5x5 box whose top left corner is the anchor. *)
Theorem get_cells_tetromino p :
  length (Tetromino.get_cells p) = 4%nat
  ∧ NoDup (Tetromino.get_cells p)
  ∧ Forall (λ c, Tetromino.x p ≤ c.1 < Tetromino.x p + 5
                 ∧ Tetromino.y p ≤ c.2 < Tetromino.y p + 5)
           (Tetromino.get_cells p).
Proof.
  split_and!; [apply get_cells_length|apply get_cells_NoDup|apply get_cells_box].
Qed.

Lemma valid_in_grid grid p :
  is_valid_position grid p 0 0 None = Some true →
  0 ≤ Tetromino.y p →
  Forall in_grid (Tetromino.get_cells p).
Proof.
  rewrite is_valid_position_true, candidate_cells_id. intros Hvalid Hy.
  pose proof (get_cells_box p) as Hbox.
  rewrite list.Forall_forall in *. intros c Hc.
  destruct (Hvalid c Hc) as (Hx & Hh & _). destruct (Hbox c Hc) as [_ Hb].
  unfold in_grid. lia.
Qed.

Lemma spawn_piece_inv k :
  0 ≤ Tetromino.y (get_new_piece k)
  ∧ 0 ≤ Tetromino.rotation (get_new_piece k)
      < Z.of_nat (length (TETROMINOES (Tetromino.shape (get_new_piece k))))
  ∧ Forall in_grid (Tetromino.get_cells (get_new_piece k)).
Proof.
  split; [done|]. split; [destruct k; simpl; lia|].
  apply (valid_in_grid empty_grid); [apply spawn_valid|done].
Qed.

Lemma new_rotation_range p :
  0 ≤ new_rotation p < Z.of_nat (length (TETROMINOES (Tetromino.shape p))).
Proof.
  unfold new_rotation. apply Z.mod_pos_bound.
  destruct (Tetromino.shape p); simpl; lia.
Qed.

(** ** The invariants along a run *)

Lemma piece_inv_set_piece g p :
  piece_inv g →
  is_valid_position (grid g) p 0 0 None = Some true →
  0 ≤ Tetromino.y p →
  0 ≤ Tetromino.rotation p
    < Z.of_nat (length (TETROMINOES (Tetromino.shape p))) →
  piece_inv (set_current_piece g p).
Proof.
  intros (_ & _ & _ & Hnext) Hvalid Hy Hrot.
  split; [done|]. split; [done|]. split; [|done].
  by eapply valid_in_grid.
Qed.

Lemma piece_inv_move dx g g' :
  move_piece dx g = Some g' → piece_inv g → piece_inv g'.
Proof.
  unfold move_piece. rewrite check_current_eq. intros H Hinv.
  destruct (is_valid_position (grid g) (current_piece g) dx 0 None)
    as [[]|] eqn:Hb; simplify_eq/=; [|done].
  destruct Hinv as (Hy & Hrot & Hcells & Hnext).
  apply piece_inv_set_piece; [done| |done|done].
  by rewrite valid_set_x.
Qed.

Lemma piece_inv_rotate g g' :
  rotate_piece g = Some g' → piece_inv g → piece_inv g'.
Proof.
  unfold rotate_piece. rewrite check_current_eq. intros H Hinv.
  destruct (is_valid_position (grid g) (current_piece g) 0 0 _)
    as [[]|] eqn:Hb; simplify_eq/=; [|done].
  apply (piece_inv_set_piece g
           (Tetromino.set_rotation (current_piece g)
              (new_rotation (current_piece g)))); [done| | |].
  - rewrite valid_set_rotation. exact Hb.
  - apply Hinv.
  - exact (new_rotation_range (current_piece g)).
Qed.

Lemma piece_inv_down g :
  is_valid_position (grid g) (current_piece g) 0 1 None = Some true →
  piece_inv g → piece_inv (current_down g).
Proof.
  intros Hb Hinv. destruct Hinv as (Hy & Hrot & Hcells & Hnext).
  apply piece_inv_set_piece; [done| |simpl; lia|done].
  by rewrite valid_set_y.
Qed.

Lemma piece_inv_soft_drop g g' :
  soft_drop g = Some g' → piece_inv g → piece_inv g'.
Proof.
  unfold soft_drop. rewrite check_current_eq. intros H Hinv.
  destruct (is_valid_position (grid g) (current_piece g) 0 1 None)
    as [[]|] eqn:Hb; simplify_eq/=; [|done].
  by apply piece_inv_down.
Qed.

Lemma piece_inv_drop fuel g g' :
  drop_piece fuel g = Finished (Some g') → piece_inv g → piece_inv g'.
Proof.
  revert g. induction fuel as [|fuel IH]; intros g H Hinv; [done|].
  simpl in H. rewrite check_current_eq in H.
  destruct (is_valid_position (grid g) (current_piece g) 0 1 None)
    as [[]|] eqn:Hb; simplify_eq/=; [|done].
  eapply IH; [done|]. by apply piece_inv_down.
Qed.

Lemma piece_inv_init c1 c2 : piece_inv (init c1 c2).
Proof.
  destruct (spawn_piece_inv c1) as (Hy & Hrot & Hcells).
  split; [done|]. split; [done|]. split; [done|]. by exists c2.
Qed.

Lemma row_complete_empty_row : row_complete empty_row = false.
Proof. reflexivity. Qed.

Lemma compacted_no_complete grid : no_complete_row (compacted grid).
Proof.
  unfold no_complete_row, compacted. apply Forall_app. split.
  - apply Forall_replicate, row_complete_empty_row.
  - induction grid as [|row rest IH]; simpl; [constructor|].
    destruct (row_complete row) eqn:Hrow; simpl; [done|]. by constructor.
Qed.

Lemma clear_lines_stats g r :
  length (grid g) = Z.to_nat GRID_HEIGHT →
  clear_lines g = Some r → stats_inv g → stats_inv r.2.
Proof.
  intros Hlen. rewrite (clear_lines_eq g Hlen). intros H. simplify_eq/=.
  intros (Hl & Hs & Hd & Hlev & Hsp).
  case_bool_decide as Hn; [|done].
  set (n := Z.of_nat (length (List.filter row_complete (grid g)))) in *.
  assert (1 ≤ level g)
    by (rewrite Hlev; pose proof (Z.div_pos (lines_cleared g) 10); lia).
  unfold stats_inv. simpl. split_and!; [lia|nia| |done|done].
  apply Z.divide_add_r; [done|]. exists (n * level g). lia.
Qed.

(** The games of the [else] branch of [update]: what is kept. *)
Lemma full_inv_lock choice g g' :
  lock_piece choice g = Some g' → full_inv g → game_over g = false →
  full_inv g'.
Proof.
  intros Hlock (Hinv & Hpiece & Hstats & Hrows) Hover.
  split; [by eapply game_inv_lock|].
  destruct Hinv as (Hwf & _ & _ & _ & Hvalid).
  destruct (lock_piece_spec choice g Hwf (Hvalid Hover))
    as (g1 & g2 & b & Hplace & Hwf1 & Hclear & Hgrid & Hb & Heq).
  rewrite Heq in Hlock. simplify_eq/=.
  destruct Hpiece as (_ & _ & _ & k & Hk).
  assert (stats_inv g1) as Hstats1.
  { unfold place_piece in Hplace.
    destruct (place_cells (grid g) _ _); by simplify_eq/=. }
  pose proof (clear_lines_stats g1 _ (proj1 Hwf1) Hclear Hstats1) as Hstats2.
  split_and!.
  - rewrite Hk. destruct (spawn_piece_inv k) as (Hy & Hrot & Hcells).
    split; [done|]. split; [done|]. split; [done|]. by eexists.
  - done.
  - simpl. rewrite Hgrid. apply compacted_no_complete.
Qed.

Lemma full_inv_update choice dt g g' :
  update choice dt g = Some g' → full_inv g → full_inv g'.
Proof.
  intros H Hfull. split; [eapply game_inv_update; [done|apply Hfull]|].
  unfold update in H.
  destruct (game_over g) eqn:Hover; [simplify_eq; apply Hfull|].
  assert (full_inv (set_fall_time g (fall_time g + dt))) as Hfull1.
  { destruct Hfull as ((? & ? & ? & ? & ?) & ? & ? & ?).
    split_and!; simpl; done. }
  simpl in H. case_bool_decide; [|simplify_eq; apply Hfull1].
  rewrite check_current_eq in H. simpl in H.
  destruct (is_valid_position (grid g) (current_piece g) 0 1 None)
    as [[]|] eqn:Hb; simplify_eq/=.
  - destruct Hfull1 as (_ & Hp & Hs & Hr).
    pose proof (piece_inv_down _ Hb Hp). split_and!; done.
  - destruct (lock_piece choice _) as [g1|] eqn:Hlock; simplify_eq/=.
    destruct (full_inv_lock _ _ _ Hlock Hfull1 Hover) as (_ & Hp & Hs & Hr).
    split_and!; done.
Qed.

Lemma full_inv_handlers g o g' :
  match o with Tick _ _ | Reset _ _ => False | _ => True end →
  step g o g' → full_inv g → full_inv g'.
Proof.
  intros Ho Hstep (Hinv & Hpiece & Hstats & Hrows).
  pose proof (handlers_frame g o g' Ho Hstep)
    as (Hg & _ & Hsc & Hlv & Hln & _ & Hsp & _).
  split; [by eapply step_game_inv|]. split.
  - destruct o; simpl in Hstep; try done.
    + by eapply piece_inv_move.
    + by eapply piece_inv_rotate.
    + by eapply piece_inv_soft_drop.
    + destruct Hstep as [fuel Hd]. by eapply piece_inv_drop.
  - unfold stats_inv. rewrite Hg, Hsc, Hlv, Hln, Hsp. done.
Qed.

Lemma full_inv_init c1 c2 : full_inv (init c1 c2).
Proof.
  split_and!.
  - apply game_inv_init.
  - apply piece_inv_init.
  - unfold stats_inv. simpl. split_and!; try done. by exists 0.
  - apply Forall_replicate, row_complete_empty_row.
Qed.

Lemma step_full_inv g o g' : step g o g' → full_inv g → full_inv g'.
Proof.
  destruct o.
  - apply full_inv_update.
  - by apply full_inv_handlers.
  - by apply full_inv_handlers.
  - by apply full_inv_handlers.
  - by apply full_inv_handlers.
  - simpl. intros -> _. apply (full_inv_init c1 c2).
Qed.

Lemma reachable_full_inv g : reachable g → full_inv g.
Proof.
  induction 1 as [c1 c2|g o g' _ IH Hstep].
  - apply full_inv_init.
  - by eapply step_full_inv.
Qed.

(** X2. In every game that [run] can reach, over or not, the four cells
    of the current piece lie inside the grid: [0 <= x < GRID_WIDTH] and
    [0 <= y < GRID_HEIGHT].  No cell is ever above row 0, so the guard
    [y >= 0] of [place_piece] and [draw_piece] never skips a cell. *)
Theorem current_piece_in_grid g :
  reachable g →
  Forall (λ c, 0 ≤ c.1 < GRID_WIDTH ∧ 0 ≤ c.2 < GRID_HEIGHT)
         (Tetromino.get_cells (current_piece g)).
Proof.
  intros Hreach.
  destruct (reachable_full_inv g Hreach) as (_ & (_ & _ & Hcells & _) & _).
  exact Hcells.
Qed.

Lemma current_piece_in_grid_witness :
  ∃ g, exec_all (topped_out ++ [MovePiece (-1); HardDrop; RotatePiece])
         (init Shape.I Shape.I) = Some g
       ∧ reachable g
       ∧ game_over g = true
       ∧ Forall (λ c, 0 ≤ c.1 < GRID_WIDTH ∧ 0 ≤ c.2 < GRID_HEIGHT)
                (Tetromino.get_cells (current_piece g)).
Proof.
  destruct (exec_all (topped_out ++ [MovePiece (-1); HardDrop; RotatePiece])
              (init Shape.I Shape.I)) as [g|] eqn:Hg;
    [|vm_compute in Hg; discriminate Hg].
  assert (reachable g) as Hreach
    by (apply (exec_all_reachable _ _ _ Hg); constructor).
  exists g. split; [reflexivity|]. split; [exact Hreach|].
  split; [|exact (current_piece_in_grid g Hreach)].
  vm_compute in Hg. injection Hg as <-. reflexivity.
Defined.

(** X3. In every game that [run] can reach the rotation of the current
    piece is an index of its shape's list of states (the modulo in
    [get_rotated_shape] has nothing to do), its anchor is at or below row
    0 and its colour is its shape's entry of [TETROMINO_COLORS]; the next
    piece is as [get_new_piece] built it: at column 3, row 0, rotation 0. *)
Theorem pieces_normalised g :
  reachable g →
  0 ≤ Tetromino.rotation (current_piece g)
    < Z.of_nat (length (TETROMINOES (Tetromino.shape (current_piece g))))
  ∧ 0 ≤ Tetromino.y (current_piece g)
  ∧ Tetromino.color (current_piece g)
    = TETROMINO_COLORS (Tetromino.shape (current_piece g))
  ∧ ∃ k, next_piece g = Tetromino.mk 3 0 k (TETROMINO_COLORS k) 0.
Proof.
  intros Hreach.
  destruct (reachable_full_inv g Hreach)
    as ((_ & _ & Hcolor & _) & (Hy & Hrot & _ & Hnext) & _).
  split; [exact Hrot|]. split; [exact Hy|]. split; [exact Hcolor|].
  exact Hnext.
Qed.

Lemma pieces_normalised_witness :
  ∃ g, exec_all [RotatePiece; RotatePiece; RotatePiece; RotatePiece;
                 RotatePiece; HardDrop; Tick Shape.Z 500]
         (init Shape.T Shape.J) = Some g
       ∧ reachable g
       ∧ ∃ k, next_piece g = Tetromino.mk 3 0 k (TETROMINO_COLORS k) 0.
Proof.
  destruct (exec_all [RotatePiece; RotatePiece; RotatePiece; RotatePiece;
                      RotatePiece; HardDrop; Tick Shape.Z 500]
              (init Shape.T Shape.J)) as [g|] eqn:Hg;
    [|vm_compute in Hg; discriminate Hg].
  assert (reachable g) as Hreach
    by (apply (exec_all_reachable _ _ _ Hg); constructor).
  exists g. split; [reflexivity|]. split; [exact Hreach|].
  exact (proj2 (proj2 (proj2 (pieces_normalised g Hreach)))).
Defined.

(** X4. In every game that [run] can reach the counters agree with one
    another: [level] is [lines_cleared // 10 + 1], [fall_speed] is
    [max(50, 500 - (level - 1) * 50)], hence between 50 and 500, and the
    score is a non-negative multiple of 100. *)
Theorem counters_consistent g :
  reachable g →
  0 ≤ lines_cleared g
  ∧ level g = lines_cleared g `div` 10 + 1
  ∧ 1 ≤ level g
  ∧ fall_speed g = Z.max 50 (500 - (level g - 1) * 50)
  ∧ 50 ≤ fall_speed g ≤ 500
  ∧ 0 ≤ score g
  ∧ (100 | score g).
Proof.
  intros Hreach.
  destruct (reachable_full_inv g Hreach)
    as (_ & _ & (Hl & Hs & Hd & Hlev & Hsp) & _).
  assert (1 ≤ level g)
    by (rewrite Hlev; pose proof (Z.div_pos (lines_cleared g) 10); lia).
  split_and!; try done; lia.
Qed.

Lemma counters_consistent_witness :
  reachable (init Shape.L Shape.O)
  ∧ level (init Shape.L Shape.O)
    = lines_cleared (init Shape.L Shape.O) `div` 10 + 1
  ∧ 50 ≤ fall_speed (init Shape.L Shape.O) ≤ 500.
Proof.
  assert (reachable (init Shape.L Shape.O)) as Hreach by constructor.
  destruct (counters_consistent (init Shape.L Shape.O) Hreach)
    as (_ & Hlev & _ & _ & Hsp & _).
  split; [exact Hreach|]. split; [exact Hlev|exact Hsp].
Defined.

Lemma no_complete_row_count grid :
  no_complete_row grid → length (List.filter row_complete grid) = 0%nat.
Proof.
  induction 1 as [|row rest Hrow _ IH]; simpl; [done|]. by rewrite Hrow.
Qed.

Lemma clear_lines_noop g :
  length (grid g) = Z.to_nat GRID_HEIGHT →
  no_complete_row (grid g) →
  clear_lines g = Some (Py.PyNone, g).
Proof.
  intros Hlen Hrows. rewrite (clear_lines_eq g Hlen).
  pose proof (no_complete_row_count _ Hrows) as Hz.
  rewrite Hz. simpl. unfold compacted.
  rewrite Hz, filter_none_id by done. simpl. by rewrite set_grid_same.
Qed.

(** X5. In every game that [run] can reach no row of the grid is
    complete: complete rows exist only inside [update], between
    [place_piece] and [clear_lines].  A call of [clear_lines] on such a
    game would change nothing. *)
Theorem reachable_no_complete_row g :
  reachable g →
  Forall (λ row, row_complete row = false) (grid g)
  ∧ clear_lines g = Some (Py.PyNone, g).
Proof.
  intros Hreach.
  destruct (reachable_full_inv g Hreach)
    as (((Hlen & _) & _) & _ & _ & Hrows).
  split; [exact Hrows|]. by apply clear_lines_noop.
Qed.

Lemma reachable_no_complete_row_witness :
  ∃ g, exec_all [HardDrop; Tick Shape.O 500] (init Shape.I Shape.O) = Some g
       ∧ reachable g
       ∧ clear_lines g = Some (Py.PyNone, g).
Proof.
  destruct (exec_all [HardDrop; Tick Shape.O 500] (init Shape.I Shape.O))
    as [g|] eqn:Hg; [|vm_compute in Hg; discriminate Hg].
  assert (reachable g) as Hreach
    by (apply (exec_all_reachable _ _ _ Hg); constructor).
  exists g. split; [reflexivity|]. split; [exact Hreach|].
  exact (proj2 (reachable_no_complete_row g Hreach)).
Defined.

(** X6. [clear_lines] is idempotent: after one call on a grid of
    [GRID_HEIGHT] rows no row is complete, and a second call changes
    neither the grid nor the counters. *)
Theorem clear_lines_idempotent g r :
  length (grid g) = Z.to_nat GRID_HEIGHT →
  clear_lines g = Some r →
  Forall (λ row, row_complete row = false) (grid r.2)
  ∧ clear_lines r.2 = Some (Py.PyNone, r.2).
Proof.
  intros Hlen Hclear.
  destruct (clear_lines_grid g r Hlen Hclear) as (_ & Hgrid & _).
  assert (no_complete_row (grid r.2)) as Hrows
    by (rewrite Hgrid; apply compacted_no_complete).
  split; [exact Hrows|]. apply clear_lines_noop; [|done].
  by rewrite Hgrid, compacted_length.
Qed.

Lemma clear_lines_idempotent_witness :
  ∃ r, clear_lines sandwich = Some r
       ∧ clear_lines r.2 = Some (Py.PyNone, r.2).
Proof.
  destruct (clear_lines sandwich) as [r|] eqn:Hr;
    [|vm_compute in Hr; discriminate Hr].
  exists r. split; [reflexivity|].
  exact (proj2 (clear_lines_idempotent sandwich r eq_refl Hr)).
Defined.

(** ** More on [place_piece] and [is_valid_position] *)

Lemma grid_get_nonneg grid y x :
  wf_grid grid → 0 ≤ y < GRID_HEIGHT → 0 ≤ x < GRID_WIDTH →
  grid_get grid y x = grid !! Z.to_nat y ≫= (.!! Z.to_nat x).
Proof.
  intros [Hlen Hrows] Hy Hx. unfold grid_get.
  rewrite getitem_nonneg by lia.
  destruct (grid !! Z.to_nat y) as [row|] eqn:Hrow; [|done]. simpl.
  apply getitem_nonneg.
  rewrite list.Forall_forall in Hrows.
  rewrite (Hrows row) by (by eapply list_elem_of_lookup_2). lia.
Qed.

Lemma grid_set_nonneg grid y x v :
  wf_grid grid → 0 ≤ y < GRID_HEIGHT → 0 ≤ x < GRID_WIDTH →
  grid_set grid y x v
  = row ← grid !! Z.to_nat y;
    Some (<[Z.to_nat y := <[Z.to_nat x := v]> row]> grid).
Proof.
  intros [Hlen Hrows] Hy Hx. unfold grid_set.
  rewrite getitem_nonneg by lia.
  destruct (grid !! Z.to_nat y) as [row|] eqn:Hrow; [|done]. simpl.
  assert (length row = Z.to_nat GRID_WIDTH) as Hw.
  { rewrite list.Forall_forall in Hrows. apply Hrows.
    by eapply list_elem_of_lookup_2. }
  unfold Py.setitem. rewrite !index_nonneg by lia. done.
Qed.

Lemma grid_get_set_other grid grid' y0 x0 v y x :
  wf_grid grid →
  0 ≤ y0 < GRID_HEIGHT → 0 ≤ x0 < GRID_WIDTH →
  0 ≤ y < GRID_HEIGHT → 0 ≤ x < GRID_WIDTH →
  grid_set grid y0 x0 v = Some grid' → (x, y) ≠ (x0, y0) →
  grid_get grid' y x = grid_get grid y x.
Proof.
  intros Hwf Hy0 Hx0 Hy Hx Hset Hne.
  pose proof (grid_set_wf _ _ _ _ _ Hset Hwf) as Hwf'.
  rewrite !grid_get_nonneg by done.
  rewrite grid_set_nonneg in Hset by done.
  destruct (grid !! Z.to_nat y0) as [row|] eqn:Hrow; simplify_eq/=.
  destruct (decide (Z.to_nat y = Z.to_nat y0)) as [Heq|Hney].
  - rewrite Heq, list_lookup_insert_eq by (by eapply lookup_lt_Some).
    rewrite Hrow. simpl. apply list_lookup_insert_ne.
    intros Hxx. apply Hne. f_equal; lia.
  - by rewrite list_lookup_insert_ne.
Qed.

Lemma place_cells_frame grid grid' color cells x y :
  wf_grid grid → Forall in_grid cells →
  place_cells grid color cells = Some grid' →
  0 ≤ y < GRID_HEIGHT → 0 ≤ x < GRID_WIDTH →
  grid_get grid' y x
  = if decide ((x, y) ∈ cells) then Some color else grid_get grid y x.
Proof.
  revert grid. induction cells as [|[x0 y0] rest IH];
    intros grid Hwf Hcells Hplace Hy Hx.
  - simpl in Hplace. simplify_eq.
    by rewrite decide_False by apply not_elem_of_nil.
  - apply Forall_cons_1 in Hcells as [[Hx0 Hy0] Hrest]. simpl in *.
    rewrite bool_decide_eq_true_2 in Hplace by lia.
    destruct (grid_set grid y0 x0 color) as [grid1|] eqn:Hset; simplify_eq/=.
    rewrite (IH grid1) by (done || by eapply grid_set_wf).
    destruct (decide ((x, y) ∈ rest)) as [Hin|Hnin].
    + by rewrite decide_True by (by apply list_elem_of_further).
    + destruct (decide ((x, y) = (x0, y0))) as [Heq|Hne].
      * simplify_eq. rewrite decide_True by apply list_elem_of_here.
        by eapply grid_get_set_eq.
      * assert ((x, y) ∉ (x0, y0) :: rest) as Hn
          by (rewrite elem_of_cons; intros [?|?]; done).
        rewrite decide_False by done.
        by apply (grid_get_set_other grid grid1 y0 x0 color).
Qed.

(** X7. [place_piece] with a piece inside a well-formed grid changes the
    grid and nothing else, keeps the shape of the grid, and writes the
    cells of the piece and no other: afterwards a cell of the piece holds
    the piece's colour and every other cell holds what it held. *)
Theorem place_piece_writes_exactly g piece g' :
  wf_grid (grid g) →
  Forall in_grid (Tetromino.get_cells piece) →
  place_piece g piece = Some g' →
  g' = set_grid g (grid g')
  ∧ wf_grid (grid g')
  ∧ ∀ x y, 0 ≤ x < GRID_WIDTH → 0 ≤ y < GRID_HEIGHT →
      grid_get (grid g') y x
      = if decide ((x, y) ∈ Tetromino.get_cells piece)
        then Some (Tetromino.color piece)
        else grid_get (grid g) y x.
Proof.
  intros Hwf Hcells Hplace. unfold place_piece in Hplace.
  destruct (place_cells (grid g) (Tetromino.color piece)
              (Tetromino.get_cells piece)) as [grid'|] eqn:Hp; simplify_eq/=.
  split; [done|]. split; [by eapply place_cells_wf|].
  intros x y Hx Hy. by apply place_cells_frame.
Qed.

Lemma place_piece_writes_exactly_witness :
  wf_grid (grid (init Shape.O Shape.T))
  ∧ Forall in_grid (Tetromino.get_cells (get_new_piece Shape.O))
  ∧ ∃ g', place_piece (init Shape.O Shape.T) (get_new_piece Shape.O)
          = Some g'
          ∧ grid_get (grid g') 2 4 = Some YELLOW
          ∧ grid_get (grid g') 2 3 = Some BLACK.
Proof.
  assert (wf_grid (grid (init Shape.O Shape.T))) as Hwf.
  { split; [reflexivity|]. vm_compute. repeat constructor. }
  assert (Forall in_grid (Tetromino.get_cells (get_new_piece Shape.O)))
    as Hcells.
  { vm_compute. repeat constructor; discriminate. }
  split; [exact Hwf|]. split; [exact Hcells|].
  destruct (place_piece (init Shape.O Shape.T) (get_new_piece Shape.O))
    as [g'|] eqn:Hp; [|vm_compute in Hp; discriminate Hp].
  exists g'. split; [reflexivity|].
  destruct (place_piece_writes_exactly _ _ _ Hwf Hcells Hp) as (_ & _ & Hget).
  split.
  - rewrite (Hget 4 2) by (vm_compute; split; congruence). reflexivity.
  - rewrite (Hget 3 2) by (vm_compute; split; congruence). reflexivity.
Defined.

Lemma index_None n i :
  Py.index n i = None ↔ Z.of_nat n ≤ i ∨ i < - Z.of_nat n.
Proof. unfold Py.index. repeat case_bool_decide; split; (done || lia). Qed.

Lemma grid_set_None grid y x v :
  wf_grid grid → 0 ≤ y →
  grid_set grid y x v = None
  ↔ GRID_HEIGHT ≤ y ∨ GRID_WIDTH ≤ x ∨ x < - GRID_WIDTH.
Proof.
  intros [Hlen Hrows] Hy. unfold grid_set.
  destruct (decide (y < GRID_HEIGHT)) as [Hlt|Hge].
  - rewrite getitem_nonneg by lia.
    destruct (lookup_lt_is_Some_2 grid (Z.to_nat y)) as [row Hrow]; [lia|].
    rewrite Hrow. simpl.
    assert (length row = Z.to_nat GRID_WIDTH) as Hw.
    { rewrite list.Forall_forall in Hrows. apply Hrows.
      by eapply list_elem_of_lookup_2. }
    unfold Py.setitem. rewrite (index_nonneg (length grid)) by lia.
    destruct (Py.index (length row) x) as [k|] eqn:Hk; simpl.
    + split; [done|]. intros [?|Hx]; [lia|].
      assert (Py.index (length row) x = None) as Hnone
        by (apply index_None; rewrite Hw; unfold GRID_WIDTH in *; lia).
      congruence.
    + apply index_None in Hk. rewrite Hw in Hk.
      split; [|done]. intros _. unfold GRID_WIDTH in *. lia.
  - unfold Py.getitem.
    assert (Py.index (length grid) y = None) as ->
      by (apply index_None; lia).
    simpl. split; [|done]. intros _. lia.
Qed.

Lemma place_cells_None grid color cells :
  wf_grid grid →
  place_cells grid color cells = None ↔ Exists unwritable cells.
Proof.
  revert grid. induction cells as [|[x y] rest IH]; intros grid Hwf; simpl.
  - split; [done|]. by intros ?%Exists_nil.
  - rewrite Exists_cons. unfold unwritable at 1. simpl.
    case_bool_decide as Hy.
    + destruct (grid_set grid y x color) as [grid1|] eqn:Hset; simpl.
      * rewrite (IH grid1) by (by eapply grid_set_wf).
        assert (¬ (GRID_HEIGHT ≤ y ∨ GRID_WIDTH ≤ x ∨ x < - GRID_WIDTH)) as Hn.
        { rewrite <- (grid_set_None grid y x color) by (done || lia).
          congruence. }
        split; [by right|]. intros [[_ ?]|?]; done.
      * apply grid_set_None in Hset; [|done|lia].
        split; [|done]. intros _. left. split; [lia|done].
    + rewrite (IH grid) by done. split; [by right|].
      intros [[? _]|?]; [lia|done].
Qed.

Lemma getitem_negative {A} (l : list A) i :
  - Z.of_nat (length l) ≤ i < 0 →
  Py.getitem l i = Py.getitem l (i + Z.of_nat (length l)).
Proof.
  intros Hi. unfold Py.getitem, Py.index.
  rewrite (bool_decide_eq_false_2 (0 ≤ i)) by lia.
  rewrite (bool_decide_eq_true_2 (- Z.of_nat (length l) ≤ i)) by lia.
  rewrite (bool_decide_eq_true_2 (0 ≤ i + Z.of_nat (length l))) by lia.
  rewrite (bool_decide_eq_true_2 (i + Z.of_nat (length l) < _)) by lia.
  simpl. do 2 f_equal. lia.
Qed.

(** X8. [place_piece] checks no bounds itself.  On a well-formed grid it
    raises [IndexError] exactly when some cell of the piece on or below
    row 0 lies past the right edge, past the bottom edge, or left of
    column [-GRID_WIDTH]; a cell in a column [-GRID_WIDTH <= x < 0] does
    not raise: it is written in column [x + GRID_WIDTH] of its row. *)
Theorem place_piece_raises_iff g piece :
  wf_grid (grid g) →
  (place_piece g piece = None
   ↔ Exists unwritable (Tetromino.get_cells piece))
  ∧ (∀ g' c, place_piece g piece = Some g' →
       c ∈ Tetromino.get_cells piece → 0 ≤ c.2 → c.1 < 0 →
       grid_get (grid g') c.2 (c.1 + GRID_WIDTH)
       = Some (Tetromino.color piece)).
Proof.
  intros Hwf. split.
  - rewrite <- (place_cells_None (grid g) (Tetromino.color piece)) by done.
    unfold place_piece.
    by destruct (place_cells (grid g) _ _).
  - intros g' c Hplace Hc Hy Hx. unfold place_piece in Hplace.
    destruct (place_cells (grid g) (Tetromino.color piece)
                (Tetromino.get_cells piece)) as [grid'|] eqn:Hp;
      simplify_eq/=.
    pose proof (place_cells_wf _ _ _ _ Hp Hwf) as [Hlen' Hrows'].
    destruct (place_cells_written _ _ _ _ Hp) as [_ Hw].
    rewrite list.Forall_forall in Hw. specialize (Hw c Hc Hy).
    unfold grid_get in *.
    destruct (Py.getitem grid' c.2) as [row|] eqn:Hrow; simplify_eq/=.
    assert (length row = Z.to_nat GRID_WIDTH) as Hlenrow.
    { rewrite list.Forall_forall in Hrows'. apply Hrows'.
      unfold Py.getitem in Hrow.
      destruct (Py.index (length grid') c.2); simplify_eq/=.
      by eapply list_elem_of_lookup_2. }
    assert (- Z.of_nat (length row) ≤ c.1) as Hlow.
    { unfold Py.getitem in Hw.
      destruct (Py.index (length row) c.1) as [k|] eqn:Hk; simplify_eq/=.
      destruct (decide (- Z.of_nat (length row) ≤ c.1)); [done|].
      assert (Py.index (length row) c.1 = None)
        by (apply index_None; lia). congruence. }
    rewrite getitem_negative in Hw by lia.
    rewrite Hlenrow in Hw. exact Hw.
Qed.

Lemma place_piece_raises_iff_witness :
  wf_grid (grid (init Shape.I Shape.O))
  ∧ place_piece (init Shape.I Shape.O)
      (Tetromino.mk 8 0 Shape.I CYAN 1) = None.
Proof.
  assert (wf_grid (grid (init Shape.I Shape.O))) as Hwf.
  { split; [reflexivity|]. vm_compute. repeat constructor. }
  split; [exact Hwf|].
  apply (place_piece_raises_iff (init Shape.I Shape.O)
           (Tetromino.mk 8 0 Shape.I CYAN 1) Hwf).
  vm_compute. do 2 apply Exists_cons_tl. apply Exists_cons_hd.
  split; [discriminate|]. right. left. discriminate.
Defined.

(** X9. Checking a piece under a translation and a rotation override is
    checking, in place, the piece moved and turned that way: the
    arguments [dx], [dy] and [rotation] of [is_valid_position] stand for
    the fields that [move_piece], the drops and [rotate_piece] assign
    after a successful check. *)
Theorem is_valid_position_displaced grid p dx dy rotation :
  is_valid_position grid p dx dy rotation
  = is_valid_position grid
      (Tetromino.mk (Tetromino.x p + dx) (Tetromino.y p + dy)
         (Tetromino.shape p) (Tetromino.color p)
         (default (Tetromino.rotation p) rotation))
      0 0 None.
Proof.
  rewrite is_valid_position_check, is_valid_position_check_None.
  rewrite (check_cells_shift grid dx dy). f_equal.
  rewrite !get_cells_offsets, <- list_fmap_compose.
  apply list_fmap_ext. intros _ [j i] _. simpl. f_equal; lia.
Qed.

(** X10. After [place_piece] has written a piece of a table colour
    inside a well-formed grid, a position is valid exactly if it was
    valid before and shares no cell with the written piece: locking a
    piece frees nothing and blocks the piece's own cells only. *)
Theorem valid_after_place_piece g piece g' q dx dy rotation :
  wf_grid (grid g) →
  Forall in_grid (Tetromino.get_cells piece) →
  Tetromino.color piece = TETROMINO_COLORS (Tetromino.shape piece) →
  place_piece g piece = Some g' →
  is_valid_position (grid g') q dx dy rotation = Some true
  ↔ is_valid_position (grid g) q dx dy rotation = Some true
    ∧ Forall (λ c, c ∉ Tetromino.get_cells piece)
             (candidate_cells q dx dy rotation).
Proof.
  intros Hwf Hcells Hcolor Hplace. unfold place_piece in Hplace.
  destruct (place_cells (grid g) (Tetromino.color piece)
              (Tetromino.get_cells piece)) as [grid'|] eqn:Hp; simplify_eq/=.
  assert (Tetromino.color piece ≠ BLACK) as Hnb
    by (rewrite Hcolor; destruct (Tetromino.shape piece); discriminate).
  rewrite !is_valid_position_true, <- list.Forall_and.
  apply list.Forall_iff. intros [x y]. unfold cell_free. simpl.
  destruct (decide (y < 0)) as [Hneg|Hpos].
  - split.
    + intros (Hx & Hy & _). split; [by auto|].
      intros Hin. rewrite list.Forall_forall in Hcells.
      destruct (Hcells _ Hin) as [_ ?]. simpl in *. lia.
    + intros [(Hx & Hy & _) _]. by auto.
  - split.
    + intros (Hx & Hy & [?|Hget]); [lia|].
      rewrite (place_cells_frame _ _ _ _ x y Hwf Hcells Hp) in Hget
        by lia.
      destruct (decide ((x, y) ∈ Tetromino.get_cells piece)); [congruence|].
      by auto.
    + intros [(Hx & Hy & [?|Hget]) Hnin]; [lia|].
      split; [done|]. split; [done|]. right.
      rewrite (place_cells_frame _ _ _ _ x y Hwf Hcells Hp) by lia.
      by rewrite decide_False.
Qed.

Lemma valid_after_place_piece_witness :
  ∃ g', place_piece (init Shape.O Shape.T)
          (Tetromino.set_y (get_new_piece Shape.O) 16) = Some g'
        ∧ is_valid_position (grid g') (get_new_piece Shape.T) 0 14 None
          = Some true.
Proof.
  assert (wf_grid (grid (init Shape.O Shape.T))) as Hwf.
  { split; [reflexivity|]. vm_compute. repeat constructor. }
  assert (Forall in_grid
            (Tetromino.get_cells (Tetromino.set_y (get_new_piece Shape.O) 16)))
    as Hcells.
  { vm_compute. repeat constructor; discriminate. }
  destruct (place_piece (init Shape.O Shape.T)
              (Tetromino.set_y (get_new_piece Shape.O) 16))
    as [g'|] eqn:Hp; [|vm_compute in Hp; discriminate Hp].
  exists g'. split; [reflexivity|].
  apply (valid_after_place_piece _ _ _ (get_new_piece Shape.T) 0 14 None
           Hwf Hcells eq_refl Hp).
  split; [vm_compute; reflexivity|].
  vm_compute. repeat constructor; intros Hin;
    repeat (apply elem_of_cons in Hin as [Hin|Hin]; [discriminate Hin|]);
    by apply not_elem_of_nil in Hin.
Defined.

(** ** How the calls compose *)

Lemma set_x_back p dx :
  Tetromino.set_x (Tetromino.set_x p (Tetromino.x p + dx))
    (Tetromino.x p + dx + - dx) = p.
Proof. destruct p. unfold Tetromino.set_x. simpl. f_equal. lia. Qed.

(** X11. In a game that [run] can reach and that is not over, a sideways
    move that is accepted can be taken back: the opposite move is
    accepted too and gives the game as it was. *)
Theorem move_piece_round_trip dx g :
  reachable g →
  game_over g = false →
  is_valid_position (grid g) (current_piece g) dx 0 None = Some true →
  ∃ g', move_piece dx g = Some g'
        ∧ Tetromino.x (current_piece g')
          = Tetromino.x (current_piece g) + dx
        ∧ move_piece (- dx) g' = Some g.
Proof.
  intros Hreach Hover Hb.
  destruct (reachable_game_inv g Hreach) as (_ & _ & _ & _ & Hvalid).
  specialize (Hvalid Hover).
  unfold move_piece at 1. rewrite check_current_eq, Hb. simpl.
  eexists. split; [done|]. split; [done|].
  unfold move_piece. rewrite check_current_eq. simpl.
  rewrite <- valid_set_x. simpl. rewrite set_x_back, Hvalid. simpl.
  rewrite set_x_back. by destruct g.
Qed.

Lemma move_piece_round_trip_witness :
  reachable (init Shape.S Shape.Z)
  ∧ ∃ g', move_piece 1 (init Shape.S Shape.Z) = Some g'
          ∧ move_piece (-1) g' = Some (init Shape.S Shape.Z).
Proof.
  assert (reachable (init Shape.S Shape.Z)) as Hreach by constructor.
  split; [exact Hreach|].
  destruct (move_piece_round_trip 1 (init Shape.S Shape.Z) Hreach eq_refl)
    as (g' & Hmove & _ & Hback).
  - vm_compute. reflexivity.
  - exists g'. split; [exact Hmove|exact Hback].
Defined.

Lemma drop_piece_stops fuel g g' :
  drop_piece fuel g = Finished (Some g') →
  is_valid_position (grid g') (current_piece g') 0 1 None = Some false
  ∧ ∃ k, soft_drops k g = Some g'.
Proof.
  revert g. induction fuel as [|fuel IH]; intros g H; [done|].
  simpl in H. rewrite check_current_eq in H.
  destruct (is_valid_position (grid g) (current_piece g) 0 1 None)
    as [[]|] eqn:Hb; simplify_eq/=.
  - destruct (IH _ H) as [Hstop [k Hk]]. split; [done|].
    exists (S k). simpl. unfold soft_drop at 1.
    rewrite check_current_eq, Hb. simpl. exact Hk.
  - split; [done|]. by exists 0%nat.
Qed.

(** X12. A hard drop is a run of soft drops: on a well-formed grid
    [drop_piece] ends in the game that some number of presses of S leads
    to, and there neither another press of S nor another hard drop
    changes anything. *)
Theorem drop_piece_is_soft_drops g :
  wf_grid (grid g) →
  ∃ g' k,
    (∀ fuel, (drop_bound g < fuel)%nat →
       drop_piece fuel g = Finished (Some g'))
    ∧ soft_drops k g = Some g'
    ∧ soft_drop g' = Some g'
    ∧ (∀ fuel, (0 < fuel)%nat → drop_piece fuel g' = Finished (Some g')).
Proof.
  intros Hwf.
  destruct (drop_piece_finishes (drop_bound g) g Hwf)
    as (j & _ & Hrun & _); [unfold drop_bound; lia|].
  destruct (drop_piece_stops (S (drop_bound g)) g _ (Hrun _ (Nat.lt_succ_diag_r _)))
    as [Hstop [k Hk]].
  eexists _, k. split; [exact Hrun|]. split; [exact Hk|].
  simpl in Hstop. split.
  - unfold soft_drop. rewrite check_current_eq. simpl. by rewrite Hstop.
  - intros [|fuel] Hf; [lia|]. simpl.
    rewrite check_current_eq. simpl. by rewrite Hstop.
Qed.

Lemma drop_piece_is_soft_drops_witness :
  wf_grid (grid (init Shape.L Shape.J))
  ∧ ∃ g' k, drop_piece 25 (init Shape.L Shape.J) = Finished (Some g')
            ∧ soft_drops k (init Shape.L Shape.J) = Some g'
            ∧ soft_drop g' = Some g'.
Proof.
  assert (wf_grid (grid (init Shape.L Shape.J))) as Hwf.
  { split; [reflexivity|]. vm_compute. repeat constructor. }
  split; [exact Hwf|].
  destruct (drop_piece_is_soft_drops (init Shape.L Shape.J) Hwf)
    as (g' & k & Hrun & Hk & Hs & _).
  exists g', k. split; [|split; [exact Hk|exact Hs]].
  apply Hrun. vm_compute. lia.
Defined.



(** Each call returns on a game that [run] can reach. *)
Lemma exec_total g o : reachable g → ∃ g', exec o g = Some g'.
Proof.
  intros Hreach.
  destruct (reachable_game_inv g Hreach) as (Hwf & _).
  destruct o as [choice dt|dx| | | |c1 c2].
  - exact (reachable_progress g (Tick choice dt) Hreach).
  - exact (reachable_progress g (MovePiece dx) Hreach).
  - exact (reachable_progress g RotatePiece Hreach).
  - exact (reachable_progress g SoftDrop Hreach).
  - destruct (drop_piece_finishes (drop_bound g) g Hwf)
      as (k & _ & Hrun & _); [unfold drop_bound; lia|].
    eexists. unfold exec. by rewrite Hrun by lia.
  - by eexists.
Qed.

(** X14. No call raises in a game that [run] can reach: each of
    [update], [move_piece], [rotate_piece], the soft drop, [drop_piece]
    (which terminates) and [reset_game] returns, and returns a game that
    [run] can reach. *)
Theorem no_call_raises g o :
  reachable g → ∃ g', exec o g = Some g' ∧ step g o g' ∧ reachable g'.
Proof.
  intros Hreach.
  destruct (exec_total g o Hreach) as [g' Hexec].
  pose proof (exec_step o g g' Hexec) as Hstep.
  exists g'. split; [done|]. split; [done|].
  by eapply reachable_step.
Qed.

Lemma no_call_raises_witness :
  reachable (init Shape.Z Shape.S)
  ∧ ∃ g', exec HardDrop (init Shape.Z Shape.S) = Some g' ∧ reachable g'.
Proof.
  assert (reachable (init Shape.Z Shape.S)) as Hreach by constructor.
  split; [exact Hreach|].
  destruct (no_call_raises (init Shape.Z Shape.S) HardDrop Hreach)
    as (g' & Hexec & _ & Hreach').
  exists g'. split; [exact Hexec|exact Hreach'].
Defined.

Lemma handler_piece g o g' :
  key_handler o → step g o g' →
  Tetromino.shape (current_piece g') = Tetromino.shape (current_piece g)
  ∧ Tetromino.color (current_piece g') = Tetromino.color (current_piece g)
  ∧ Tetromino.y (current_piece g) ≤ Tetromino.y (current_piece g').
Proof.
  destruct o; simpl; try done; intros _.
  - unfold move_piece. rewrite check_current_eq. intros H.
    destruct (is_valid_position (grid g) (current_piece g) dx 0 None)
      as [[]|]; simplify_eq/=; by repeat split.
  - unfold rotate_piece. rewrite check_current_eq. intros H.
    destruct (is_valid_position (grid g) (current_piece g) 0 0 _)
      as [[]|]; simplify_eq/=; by repeat split.
  - unfold soft_drop. rewrite check_current_eq. intros H.
    destruct (is_valid_position (grid g) (current_piece g) 0 1 None)
      as [[]|]; simplify_eq/=; repeat split; (done || lia).
  - intros [fuel H]. revert g H.
    induction fuel as [|fuel IH]; intros g H; [done|].
    simpl in H. rewrite check_current_eq in H.
    destruct (is_valid_position (grid g) (current_piece g) 0 1 None)
      as [[]|]; simplify_eq/=; [|by repeat split].
    apply IH in H. simpl in H. destruct H as (? & ? & ?).
    repeat split; (done || lia).
Qed.

(** X15. The calls made for the keys A, D, W, S and Space act on the
    current piece only, and only on its position and rotation: the grid,
    the next piece, the score, the level, the line count, the fall timer,
    the fall interval and the game-over flag are as before, the piece
    keeps its shape and colour, and it never moves up. *)
Theorem key_handlers_move_the_piece_only g o g' :
  key_handler o →
  step g o g' →
  grid g' = grid g ∧ next_piece g' = next_piece g
  ∧ score g' = score g ∧ level g' = level g
  ∧ lines_cleared g' = lines_cleared g
  ∧ fall_time g' = fall_time g ∧ fall_speed g' = fall_speed g
  ∧ game_over g' = game_over g
  ∧ Tetromino.shape (current_piece g') = Tetromino.shape (current_piece g)
  ∧ Tetromino.color (current_piece g') = Tetromino.color (current_piece g)
  ∧ Tetromino.y (current_piece g) ≤ Tetromino.y (current_piece g').
Proof.
  intros Ho Hstep.
  destruct (handlers_frame g o g' Ho Hstep)
    as (? & ? & ? & ? & ? & ? & ? & ?).
  destruct (handler_piece g o g' Ho Hstep) as (? & ? & ?).
  split_and!; done.
Qed.

Lemma key_handlers_move_the_piece_only_witness :
  ∃ g', step (init Shape.J Shape.L) HardDrop g'
        ∧ grid g' = grid (init Shape.J Shape.L)
        ∧ Tetromino.y (current_piece (init Shape.J Shape.L))
          ≤ Tetromino.y (current_piece g').
Proof.
  destruct (exec HardDrop (init Shape.J Shape.L)) as [g'|] eqn:Hg;
    [|vm_compute in Hg; discriminate Hg].
  pose proof (exec_step _ _ _ Hg) as Hstep.
  exists g'. split; [exact Hstep|].
  destruct (key_handlers_move_the_piece_only _ HardDrop g' I Hstep)
    as (Hgrid & _ & _ & _ & _ & _ & _ & _ & _ & _ & Hy).
  split; [exact Hgrid|exact Hy].
Defined.

(** X16. A game that is over stays over until it is reset: [update]
    leaves it as it is, the key handlers leave everything but the current
    piece as it is, and [reset_game] alone gives a game that goes on, the
    fresh one. *)
Theorem game_over_until_reset g o g' :
  step g o g' →
  game_over g = true →
  match o with
  | Reset c1 c2 => g' = init c1 c2
  | Tick _ _ => g' = g
  | _ => game_over g' = true ∧ same_but_current g g'
  end.
Proof.
  intros Hstep Hover. destruct o as [choice dt|dx| | | |c1 c2].
  - simpl in Hstep. rewrite update_game_over in Hstep by done.
    by simplify_eq.
  - pose proof (handlers_frame g (MovePiece dx) g' I Hstep) as Hf.
    split; [|done]. destruct Hf as (_ & _ & _ & _ & _ & _ & _ & ->). done.
  - pose proof (handlers_frame g RotatePiece g' I Hstep) as Hf.
    split; [|done]. destruct Hf as (_ & _ & _ & _ & _ & _ & _ & ->). done.
  - pose proof (handlers_frame g SoftDrop g' I Hstep) as Hf.
    split; [|done]. destruct Hf as (_ & _ & _ & _ & _ & _ & _ & ->). done.
  - pose proof (handlers_frame g HardDrop g' I Hstep) as Hf.
    split; [|done]. destruct Hf as (_ & _ & _ & _ & _ & _ & _ & ->). done.
  - simpl in Hstep. by subst.
Qed.

Lemma game_over_until_reset_witness :
  ∃ g g', exec_all topped_out (init Shape.I Shape.I) = Some g
          ∧ step g (MovePiece (-1)) g'
          ∧ game_over g = true
          ∧ game_over g' = true ∧ same_but_current g g'.
Proof.
  destruct (exec_all topped_out (init Shape.I Shape.I)) as [g|] eqn:Hg;
    [|vm_compute in Hg; discriminate Hg].
  assert (game_over g = true) as Hover
    by (vm_compute in Hg; injection Hg as <-; reflexivity).
  destruct (move_piece (-1) g) as [g'|] eqn:Hm;
    [|vm_compute in Hg; injection Hg as <-; vm_compute in Hm;
      discriminate Hm].
  exists g, g'. split; [reflexivity|]. split; [exact Hm|].
  split; [exact Hover|].
  exact (game_over_until_reset g (MovePiece (-1)) g' Hm Hover).
Defined.

(** ** Why a game ends *)

Lemma invalid_spawn_blocked grid k :
  wf_grid grid →
  is_valid_position grid (get_new_piece k) 0 0 None = Some false →
  spawn_blocked grid.
Proof.
  intros Hwf Hb.
  assert (¬ Forall (cell_free grid) (Tetromino.get_cells (get_new_piece k)))
    as Hn.
  { rewrite <- candidate_cells_id, <- is_valid_position_true. congruence. }
  apply not_Forall_Exists in Hn; [|apply _].
  apply list.Exists_exists in Hn as ([x y] & Hin & Hnot).
  destruct (spawn_piece_inv k) as (_ & _ & Hgrid).
  pose proof (get_cells_box (get_new_piece k)) as Hbox.
  rewrite list.Forall_forall in Hgrid, Hbox.
  destruct (Hgrid _ Hin) as [Hx Hy]. destruct (Hbox _ Hin) as [Hbx Hby].
  change (Tetromino.x (get_new_piece k)) with 3 in Hbx.
  change (Tetromino.y (get_new_piece k)) with 0 in Hby.
  cbn [fst snd] in *.
  destruct (grid_get_is_Some grid y x Hwf Hy Hx) as [v Hv].
  exists x, y, v. split; [lia|]. split; [lia|]. split; [done|].
  intros ->. apply Hnot. unfold cell_free. cbn [fst snd].
  split; [done|]. split; [lia|]. by right.
Qed.

Lemma game_over_until_reset_aux g o g' :
  step g o g' → game_over g = true →
  g' = reset_game (match o with Reset c1 _ => c1 | _ => Shape.I end)
         (match o with Reset _ c2 => c2 | _ => Shape.I end) g
  ∨ grid g' = grid g.
Proof.
  intros Hstep Hover. destruct o as [choice dt|dx| | | |c1 c2].
  - simpl in Hstep. rewrite update_game_over in Hstep by done.
    right. by simplify_eq.
  - right. by destruct (handlers_frame g (MovePiece dx) g' I Hstep).
  - right. by destruct (handlers_frame g RotatePiece g' I Hstep).
  - right. by destruct (handlers_frame g SoftDrop g' I Hstep).
  - right. by destruct (handlers_frame g HardDrop g' I Hstep).
  - left. simpl in Hstep. by subst.
Qed.

(** X17. A game ends only for want of room to spawn: in every game
    that [run] can reach and that is over, some cell of the 5x5 box at
    column 3, row 0, where [get_new_piece] puts a piece, is occupied. *)
Theorem game_over_spawn_blocked g :
  reachable g → game_over g = true → spawn_blocked (grid g).
Proof.
  induction 1 as [c1 c2|g o g' Hreach IH Hstep]; [done|].
  intros Hover'.
  destruct (game_over g) eqn:Hover.
  - pose proof (game_over_until_reset_aux g o g' Hstep Hover) as Hgrid.
    destruct Hgrid as [->| ->]; [done|]. by apply IH.
  - destruct (reachable_full_inv g Hreach)
      as ((Hwf & _ & _ & _ & Hvalid) & (_ & _ & _ & k & Hk) & _).
    destruct o as [choice dt|dx| | | |c1 c2].
    + simpl in Hstep.
      destruct (update_cases choice dt g Hwf Hover) as (Hlt & Hdown & Hlock).
      destruct (decide (fall_time g + dt < fall_speed g)) as [Ht|Ht].
      { rewrite Hlt in Hstep by done. simplify_eq/=. congruence. }
      destruct (is_valid_position_total (grid g) (current_piece g) 0 1 None Hwf)
        as [[] Hb].
      { rewrite Hdown in Hstep by (done || lia). simplify_eq/=. congruence. }
      destruct Hlock as (g1 & g2 & b & _ & _ & Hvb & Hupd);
        [lia|done|by apply Hvalid|].
      rewrite Hupd in Hstep. simplify_eq/=.
      destruct b; [done|]. rewrite Hk in Hvb.
      assert (reachable
                {| grid := grid g2; current_piece := next_piece g;
                   next_piece := get_new_piece choice; score := score g2;
                   level := level g2; lines_cleared := lines_cleared g2;
                   fall_time := 0; fall_speed := fall_speed g2;
                   game_over := true |}) as Hreach'.
      { apply (reachable_step g (Tick choice dt)); [exact Hreach|exact Hupd]. }
      destruct (reachable_game_inv _ Hreach') as (Hwf2 & _).
      by eapply invalid_spawn_blocked.
    + destruct (handlers_frame g (MovePiece dx) g' I Hstep)
        as (_ & _ & _ & _ & _ & _ & _ & ?). congruence.
    + destruct (handlers_frame g RotatePiece g' I Hstep)
        as (_ & _ & _ & _ & _ & _ & _ & ?). congruence.
    + destruct (handlers_frame g SoftDrop g' I Hstep)
        as (_ & _ & _ & _ & _ & _ & _ & ?). congruence.
    + destruct (handlers_frame g HardDrop g' I Hstep)
        as (_ & _ & _ & _ & _ & _ & _ & ?). congruence.
    + simpl in Hstep. by subst.
Qed.

Lemma game_over_spawn_blocked_witness :
  ∃ g, exec_all topped_out (init Shape.I Shape.I) = Some g
       ∧ reachable g ∧ game_over g = true ∧ spawn_blocked (grid g).
Proof.
  destruct (exec_all topped_out (init Shape.I Shape.I)) as [g|] eqn:Hg;
    [|vm_compute in Hg; discriminate Hg].
  assert (reachable g) as Hreach
    by (apply (exec_all_reachable _ _ _ Hg); constructor).
  assert (game_over g = true) as Hover
    by (vm_compute in Hg; injection Hg as <-; reflexivity).
  exists g. split; [reflexivity|]. split; [exact Hreach|].
  split; [exact Hover|]. exact (game_over_spawn_blocked g Hreach Hover).
Defined.

(** ** How much one lock can clear *)

Lemma complete_from_lookup o rows i :
  i ∈ complete_from o rows →
  o ≤ i
  ∧ ∃ row, rows !! Z.to_nat (i - o) = Some row ∧ row_complete row = true.
Proof.
  revert o. induction rows as [|row rest IH]; intros o Hin; simpl in Hin.
  - by apply not_elem_of_nil in Hin.
  - assert (i = o ∧ row_complete row = true ∨ i ∈ complete_from (o + 1) rest)
      as [[-> Hrow]|Hrest].
    { destruct (row_complete row); [|by right].
      apply elem_of_cons in Hin as [->|?]; [by left|by right]. }
    + split; [lia|]. exists row. by rewrite Z.sub_diag.
    + destruct (IH _ Hrest) as [Hle (r & Hr & Hc)]. split; [lia|].
      exists r. split; [|done].
      replace (Z.to_nat (i - o)) with (S (Z.to_nat (i - (o + 1)))) by lia.
      done.
Qed.

Lemma complete_from_NoDup o rows : NoDup (complete_from o rows).
Proof.
  revert o. induction rows as [|row rest IH]; intros o; simpl.
  - constructor.
  - destruct (row_complete row); [|done].
    constructor; [|done]. intros Hin.
    apply complete_from_lookup in Hin as [? _]. lia.
Qed.

Lemma row_incomplete_black (row : list rgb) :
  row_complete row = false → ∃ j, row !! j = Some BLACK.
Proof.
  induction row as [|c row IH]; simpl; [done|].
  case_bool_decide as Hc; simpl.
  - intros H. destruct (IH H) as [j Hj]. by exists (S j).
  - intros _. exists 0%nat. simpl. by rewrite Hc.
Qed.

Lemma row_complete_lookup (row : list rgb) j c :
  row_complete row = true → row !! j = Some c → c ≠ BLACK.
Proof.
  unfold row_complete. rewrite forallb_forall. intros H Hj.
  apply list_elem_of_lookup_2, list_elem_of_In in Hj.
  apply H in Hj. by apply bool_decide_eq_true_1 in Hj.
Qed.

(** Placing a piece in a grid without complete rows completes at most as
    many rows as the piece has cells. *)
Lemma place_cells_complete_rows grid grid' color cells :
  wf_grid grid → no_complete_row grid → Forall in_grid cells →
  place_cells grid color cells = Some grid' →
  (length (List.filter row_complete grid') ≤ length cells)%nat.
Proof.
  intros Hwf Hrows Hcells Hplace.
  pose proof (place_cells_wf _ _ _ _ Hplace Hwf) as Hwf'.
  rewrite <- (length_complete_from 0), <- (length_fmap snd cells).
  apply submseteq_length, NoDup_submseteq; [apply complete_from_NoDup|].
  intros i Hi. apply complete_from_lookup in Hi as [Hi0 (row' & Hrow' & Hc)].
  rewrite Z.sub_0_r in Hrow'.
  assert (i < GRID_HEIGHT) as Hi1.
  { apply lookup_lt_Some in Hrow'. destruct Hwf' as [Hlen _]. lia. }
  destruct (lookup_lt_is_Some_2 grid (Z.to_nat i)) as [row Hrow].
  { destruct Hwf as [Hlen _]. lia. }
  assert (row_complete row = false) as Hinc.
  { unfold no_complete_row in Hrows. rewrite list.Forall_forall in Hrows.
    apply Hrows. by eapply list_elem_of_lookup_2. }
  destruct (row_incomplete_black row Hinc) as [j Hj].
  assert (Z.of_nat j < GRID_WIDTH) as Hjw.
  { apply lookup_lt_Some in Hj. destruct Hwf as [_ Hw].
    rewrite list.Forall_forall in Hw.
    rewrite (Hw row) in Hj by (by eapply list_elem_of_lookup_2). lia. }
  pose proof (place_cells_frame grid grid' color cells (Z.of_nat j) i
                Hwf Hcells Hplace) as Hframe.
  rewrite !grid_get_nonneg in Hframe by (done || lia).
  rewrite Nat2Z.id, Hrow, Hrow' in Hframe. simpl in Hframe.
  specialize (Hframe ltac:(lia) ltac:(lia)).
  destruct (decide ((Z.of_nat j, i) ∈ cells)) as [Hin|Hnin].
  - apply list_elem_of_fmap. by exists (Z.of_nat j, i).
  - rewrite Hj in Hframe.
    by apply (row_complete_lookup row' j BLACK) in Hframe.
Qed.

(** X18. One [update] of a game that [run] can reach clears at most four
    lines: the line count grows by at most 4, the score by at most
    [400 * level], the level by at most 1, and the fall interval shrinks
    by at most 50; none of them ever goes the other way. *)
Theorem update_clears_at_most_four choice dt g g' :
  reachable g →
  update choice dt g = Some g' →
  lines_cleared g ≤ lines_cleared g' ≤ lines_cleared g + 4
  ∧ score g ≤ score g' ≤ score g + 400 * level g
  ∧ level g ≤ level g' ≤ level g + 1
  ∧ fall_speed g - 50 ≤ fall_speed g' ≤ fall_speed g.
Proof.
  intros Hreach Hupd.
  destruct (reachable_full_inv g Hreach)
    as ((Hwf & _ & _ & _ & Hvalid) & (_ & _ & Hcells & _)
        & (Hl & Hs & _ & Hlev & Hsp) & Hrows).
  assert (1 ≤ level g)
    by (rewrite Hlev; pose proof (Z.div_pos (lines_cleared g) 10); lia).
  destruct (game_over g) eqn:Hover.
  { rewrite update_game_over in Hupd by done. simplify_eq. lia. }
  destruct (update_cases choice dt g Hwf Hover) as (Hlt & Hdown & Hlock).
  destruct (decide (fall_time g + dt < fall_speed g)) as [Ht|Ht].
  { rewrite Hlt in Hupd by done. simplify_eq/=. lia. }
  destruct (is_valid_position_total (grid g) (current_piece g) 0 1 None Hwf)
    as [[] Hb].
  { rewrite Hdown in Hupd by (done || lia). simplify_eq/=. lia. }
  destruct Hlock as (g1 & g2 & b & Hplace & Hclear & _ & Heq);
    [lia|done|by apply Hvalid|].
  rewrite Heq in Hupd. simplify_eq/=.
  unfold place_piece in Hplace. simpl in Hplace.
  destruct (place_cells (grid g) _ _) as [grid1|] eqn:Hp; simplify_eq/=.
  pose proof (place_cells_complete_rows _ _ _ _ Hwf Hrows Hcells Hp) as Hn.
  rewrite get_cells_length in Hn.
  assert (wf_grid grid1) as [Hlen1 _] by (by eapply place_cells_wf).
  rewrite clear_lines_eq in Hclear by done. simplify_eq/=.
  set (n := Z.of_nat (length (List.filter row_complete grid1))) in *.
  assert (0 ≤ n ≤ 4) as Hn4 by lia.
  clearbody n. clear Heq Hlt Hdown Hn.
  case_bool_decide; simpl; [|lia].
  rewrite Hsp, Hlev.
  assert (lines_cleared g `div` 10 ≤ (lines_cleared g + n) `div` 10
          ≤ lines_cleared g `div` 10 + 1)
    by (split; [apply Z.div_le_mono; lia|];
        replace (lines_cleared g `div` 10 + 1)
          with ((lines_cleared g + 1 * 10) `div` 10)
          by (rewrite Z.div_add; lia);
        apply Z.div_le_mono; lia).
  split_and!; nia.
Qed.

Lemma update_clears_at_most_four_witness :
  ∃ g g', exec_all [HardDrop] (init Shape.I Shape.O) = Some g
          ∧ update Shape.T 500 g = Some g'
          ∧ lines_cleared g ≤ lines_cleared g' ≤ lines_cleared g + 4.
Proof.
  destruct (exec_all [HardDrop] (init Shape.I Shape.O)) as [g|] eqn:Hg;
    [|vm_compute in Hg; discriminate Hg].
  assert (reachable g) as Hreach
    by (apply (exec_all_reachable _ _ _ Hg); constructor).
  destruct (update Shape.T 500 g) as [g'|] eqn:Hupd.
  - exists g, g'. split; [reflexivity|]. split; [exact Hupd|].
    exact (proj1 (update_clears_at_most_four Shape.T 500 g g' Hreach Hupd)).
  - exfalso. vm_compute in Hg. injection Hg as <-.
    vm_compute in Hupd. discriminate Hupd.
Defined.

(** ** The event loop *)

Lemma handle_events_reachable events g :
  reachable g →
  ∃ r, handle_events events g = Some r
       ∧ (∀ g', r = Some g' → reachable g')
       ∧ (r = None ↔ QUIT ∈ events.*1).
Proof.
  revert g. induction events as [|[e [c1 c2]] rest IH]; intros g Hreach.
  - exists (Some g). split; [done|]. split; [by intros ? [= <-]|].
    split; [done|]. by intros ?%not_elem_of_nil.
  - assert (∀ g1, reachable g1 → e ≠ QUIT →
              ∃ r, handle_events rest g1 = Some r
                   ∧ (∀ g', r = Some g' → reachable g')
                   ∧ (r = None ↔ QUIT ∈ ((e, (c1, c2)) :: rest).*1)) as Hrest.
    { intros g1 Hg1 He. destruct (IH g1 Hg1) as (r & Hr & Hgood & Hquit).
      exists r. split; [done|]. split; [done|].
      rewrite Hquit, fmap_cons, elem_of_cons. split; [by right|].
      by intros [?|?]. }
    destruct e as [|k|]; simpl handle_events.
    + exists None. split; [done|]. split; [done|].
      split; [|done]. intros _. rewrite fmap_cons. apply list_elem_of_here.
    + destruct (key_op k c1 c2) as [o|]; [|by apply Hrest].
      destruct (exec_total g o Hreach) as [g1 Hexec].
      rewrite Hexec. simpl. apply Hrest; [|done].
      eapply reachable_step; [done|]. by apply exec_step.
    + by apply Hrest.
Qed.

(** X19. One iteration of the loop of [run] on a game that [run] can
    reach never raises: it exits, exactly when a [QUIT] event is among
    the events, or it yields a game that [run] can reach again.  So the
    games a run of the program passes through all satisfy what holds of
    reachable games. *)
Theorem frame_keeps_reachable events choice dt g :
  reachable g →
  ∃ r, frame events choice dt g = Some r
       ∧ (∀ g', r = Some g' → reachable g')
       ∧ (r = None ↔ QUIT ∈ events.*1).
Proof.
  intros Hreach. unfold frame.
  destruct (handle_events_reachable events g Hreach)
    as (r & -> & Hgood & Hquit). simpl.
  destruct r as [g1|].
  - destruct (exec_total g1 (Tick choice dt) (Hgood g1 eq_refl))
      as [g2 Hupd]. simpl in Hupd. rewrite Hupd. simpl.
    exists (Some g2). split; [done|]. split.
    + intros g' [= <-].
      apply (reachable_step g1 (Tick choice dt)); [by apply Hgood|done].
    + rewrite <- Hquit. by split.
  - exists None. split; [done|]. split; [done|]. by rewrite <- Hquit.
Qed.

Lemma frame_keeps_reachable_witness :
  reachable (init Shape.T Shape.I)
  ∧ ∃ r, frame [(KEYDOWN K_a, (Shape.I, Shape.I));
                (OTHER, (Shape.I, Shape.I));
                (KEYDOWN K_SPACE, (Shape.I, Shape.I))]
           Shape.O 16 (init Shape.T Shape.I) = Some r
         ∧ ∀ g', r = Some g' → reachable g'.
Proof.
  assert (reachable (init Shape.T Shape.I)) as Hreach by constructor.
  split; [exact Hreach|].
  destruct (frame_keeps_reachable
              [(KEYDOWN K_a, (Shape.I, Shape.I));
               (OTHER, (Shape.I, Shape.I));
               (KEYDOWN K_SPACE, (Shape.I, Shape.I))]
              Shape.O 16 (init Shape.T Shape.I) Hreach)
    as (r & Hr & Hgood & _).
  exists r. split; [exact Hr|exact Hgood].
Defined.

(** ** Drawing *)







Lemma draw_piece_cells piece :
  Forall in_grid (Tetromino.get_cells piece) →
  draw_piece piece 0 0
  = (c ← Tetromino.get_cells piece;
     [draw_rect (Tetromino.color piece) (cell_rect c.1 c.2) 0;
      draw_rect WHITE (cell_rect c.1 c.2) 1]).
Proof.
  unfold draw_piece. induction 1 as [|[x y] cells [Hx Hy] _ IH]; [done|].
  rewrite !bind_cons, IH. f_equal. simpl in *.
  rewrite bool_decide_eq_true_2 by lia. unfold cell_rect.
  by rewrite !Z.add_0_r.
Qed.

(** X21. In every game that [run] can reach [draw_piece] draws the
    current piece on the board: eight calls, for each of the four cells
    the rectangle that [draw_grid] uses for that cell, filled with the
    colour of the piece (never the background's [BLACK]) and outlined in
    white.  No cell is skipped and none is drawn outside the grid. *)
Theorem draw_piece_on_board g :
  reachable g →
  draw_piece (current_piece g) 0 0
  = (c ← Tetromino.get_cells (current_piece g);
     [draw_rect (Tetromino.color (current_piece g)) (cell_rect c.1 c.2) 0;
      draw_rect WHITE (cell_rect c.1 c.2) 1])
  ∧ length (draw_piece (current_piece g) 0 0) = 8%nat
  ∧ Forall on_board (draw_piece (current_piece g) 0 0)
  ∧ Tetromino.color (current_piece g) ≠ BLACK.
Proof.
  intros Hreach.
  destruct (reachable_full_inv g Hreach)
    as ((_ & _ & Hcolor & _) & (_ & _ & Hcells & _) & _).
  rewrite (draw_piece_cells _ Hcells).
  split; [done|]. split; [|split].
  - pose proof (get_cells_length (current_piece g)) as Hlen.
    destruct (Tetromino.get_cells (current_piece g))
      as [|c1 [|c2 [|c3 [|c4 [|c5 l]]]]]; try done.
  - apply list.Forall_forall. intros d Hd.
    apply list_elem_of_bind in Hd as ([x y] & Hd & Hc).
    rewrite list.Forall_forall in Hcells.
    exists x, y. split; [by apply Hcells|].
    apply elem_of_cons in Hd as [->|Hd]; [done|].
    apply list_elem_of_singleton in Hd as ->. done.
  - rewrite Hcolor. destruct (Tetromino.shape (current_piece g)); discriminate.
Qed.

Lemma draw_piece_on_board_witness :
  ∃ g, exec_all [MovePiece (-1); RotatePiece; HardDrop]
         (init Shape.L Shape.J) = Some g
       ∧ reachable g
       ∧ Forall on_board (draw_piece (current_piece g) 0 0).
Proof.
  destruct (exec_all [MovePiece (-1); RotatePiece; HardDrop]
              (init Shape.L Shape.J)) as [g|] eqn:Hg;
    [|vm_compute in Hg; discriminate Hg].
  assert (reachable g) as Hreach
    by (apply (exec_all_reachable _ _ _ Hg); constructor).
  exists g. split; [reflexivity|]. split; [exact Hreach|].
  exact (proj1 (proj2 (proj2 (draw_piece_on_board g Hreach)))).
Defined.



(** ** The fall timer and the reset *)

(** X23. After an [update] of a game that [run] can reach and that is
    not over, the fall timer is below the fall interval: time beyond one
    interval is dropped, not carried over, so a long frame never causes
    more than one gravity step.  The timer stays non-negative when it was
    and [dt] is. *)
Theorem update_timer_below_interval choice dt g g' :
  reachable g →
  game_over g = false →
  update choice dt g = Some g' →
  fall_time g' < fall_speed g'
  ∧ (0 ≤ fall_time g → 0 ≤ dt → 0 ≤ fall_time g')
  ∧ (fall_time g' = fall_time g + dt ∨ fall_time g' = 0).
Proof.
  intros Hreach Hover Hupd.
  assert (reachable g') as Hreach'
    by (by apply (reachable_step g (Tick choice dt))).
  destruct (reachable_full_inv g' Hreach')
    as (_ & _ & (_ & _ & _ & _ & Hsp') & _).
  destruct (reachable_game_inv g Hreach) as (Hwf & _ & _ & _ & Hvalid).
  destruct (update_cases choice dt g Hwf Hover) as (Hlt & Hdown & Hlock).
  destruct (decide (fall_time g + dt < fall_speed g)) as [Ht|Ht].
  { rewrite Hlt in Hupd by done. simplify_eq/=. lia. }
  destruct (is_valid_position_total (grid g) (current_piece g) 0 1 None Hwf)
    as [[] Hb].
  { rewrite Hdown in Hupd by (done || lia). simplify_eq/=. lia. }
  destruct Hlock as (g1 & g2 & b & _ & _ & _ & Heq);
    [lia|done|by apply Hvalid|].
  rewrite Heq in Hupd. simplify_eq/=. lia.
Qed.

Lemma update_timer_below_interval_witness :
  reachable (init Shape.T Shape.L)
  ∧ ∃ g', update Shape.J 5000 (init Shape.T Shape.L) = Some g'
          ∧ fall_time g' < fall_speed g'.
Proof.
  assert (reachable (init Shape.T Shape.L)) as Hreach by constructor.
  split; [exact Hreach|].
  destruct (update Shape.J 5000 (init Shape.T Shape.L)) as [g'|] eqn:Hupd;
    [|vm_compute in Hupd; discriminate Hupd].
  exists g'. split; [reflexivity|].
  exact (proj1 (update_timer_below_interval Shape.J 5000 _ g' Hreach
                  eq_refl Hupd)).
Defined.

(** X24. [reset_game] keeps nothing of the game it is called on: the
    result is the game [__init__] builds from the same two draws.  That
    game is not over, its current piece is at a valid position, with all
    its cells in the grid, and can go down: whatever the draws, a game
    starts playable. *)
Theorem reset_game_playable c1 c2 g :
  reset_game c1 c2 g = init c1 c2
  ∧ game_over (init c1 c2) = false
  ∧ is_valid_position (grid (init c1 c2)) (current_piece (init c1 c2))
      0 0 None = Some true
  ∧ is_valid_position (grid (init c1 c2)) (current_piece (init c1 c2))
      0 1 None = Some true
  ∧ Forall in_grid (Tetromino.get_cells (current_piece (init c1 c2))).
Proof.
  split; [done|]. split; [done|]. split; [apply spawn_valid|].
  split; [destruct c1; vm_compute; reflexivity|].
  apply (spawn_piece_inv c1).
Qed.

(** ** Counting the occupied cells *)











(** Four cells after the first lock. *)
Example first_lock_four_cells :
  (g ← exec_all [HardDrop; Tick Shape.T 500] (init Shape.I Shape.O);
   Some (occupied (grid g))) = Some 4%nat.
Proof. vm_compute. reflexivity. Qed.
